(** * ActiveTable: an active-record layer over a spreadsheet

    A shallow embedding of [src/index.ts] (the classes [ActiveTable],
    [ActiveTableRowArray] and [ActiveTableRow]) and the properties of its
    query and mutation operations.

    Layout of the development:
    - [Js]: the fragment of the ECMAScript value semantics the source relies
      on (strict equality, SameValueZero, the relational comparison and the
      nullish-coalescing operator);
    - [Property]: property reads, through the own properties of an object
      and then through its prototype chain;
    - [Store] and [Heap]: the spreadsheet collaborator (a grid per sheet and
      the mutation calls it receives), the Row objects and the array
      objects, all by reference, since the source mutates both in place;
    - [Operable], [Row], [RowArray], [Table]: the capability a table hands
      to its rows and the three classes, method by method, each method a
      function from the world it runs in to its completion and the world
      it leaves;
    - the vocabulary of the statements, then the lemmas and theorems, one
      block per operation.

    Property names.  A column may bear any text as its name, also the name
    of a member that a Row or a plain object inherits (delete, constructor,
    toString).  A read [obj[key]] answers the own property when the object
    has one and what its prototype chain holds under the key otherwise; a
    call [row.delete()] is such a read followed by a call of the value
    read, a TypeError when that value is no function.  The fields of a Row
    and the properties of the objects a caller passes hold cell values,
    never functions, so a field named after a method makes the call of
    that method throw.  An assignment under the key [__proto__] defines no
    property: it reaches the setter every object inherits, which replaces
    the prototype when the value is null or an object.

    What the model leaves out: [cellOf], which answers a handle of the
    spreadsheet service, and failures of the service itself (its calls
    always complete). *)

From Stdlib Require Import QArith.
From stdpp Require Import gmap strings list fin_maps sorting.

(* ===================================================================== *)
(** ** ECMAScript values                                                 *)
(* ===================================================================== *)

(** A Number: a finite double is represented by the rational it denotes
    (both zeros by [0]); only comparisons of Numbers occur in the source,
    which coincide with the comparisons of the denoted rationals. *)
Inductive JsNum :=
| NaN
| Fin (q : Q)
| PosInf
| NegInf.

(** The values a cell or a field holds.  Text is the sequence of its code
    units, each taken to fit a byte, and is compared code unit by code
    unit.  A [Date] is an object: it has an identity ([ref]) and a time
    value ([time], [NaN] for an invalid date). *)
Inductive JsValue :=
| VUndefined
| VNull
| VBool (b : bool)
| VNumber (n : JsNum)
| VString (s : string)
| VDate (ref : nat) (time : JsNum).

(** The objects of the runtime that a property read finds on a prototype
    chain: the two prototypes themselves (what the accessor [__proto__]
    answers) and their members.  [ObjectMember name] is the function
    [Object.prototype[name]] ([Object] itself under constructor),
    [RowMember name] the method [ActiveTableRow.prototype[name]] (the class
    under constructor) and [DateMember name] the function
    [Date.prototype[name]]. *)
Inductive Builtin :=
| ObjectPrototype
| RowPrototype
| ObjectMember (name : string)
| RowMember (name : string)
| DateMember (name : string).

#[global] Instance Builtin_eq_dec : EqDecision Builtin.
Proof. solve_decision. Defined.

(** What an expression of the source evaluates to: a cell value, or one of
    the objects above. *)
Inductive JsAny :=
| Cell (v : JsValue)
| Object (o : Builtin).

Coercion Cell : JsValue >-> JsAny.

Module Js.

(** Number::equal. *)
Definition num_equal (a b : JsNum) : bool :=
  match a, b with
  | Fin x, Fin y => Qeq_bool x y
  | PosInf, PosInf => true
  | NegInf, NegInf => true
  | _, _ => false
  end.

(** Number::lessThan; [None] is the answer undefined (a NaN operand). *)
Definition num_lessThan (a b : JsNum) : option bool :=
  match a, b with
  | NaN, _ | _, NaN => None
  | PosInf, _ => Some false
  | _, PosInf => Some true
  | _, NegInf => Some false
  | NegInf, _ => Some true
  | Fin x, Fin y => Some (negb (Qle_bool y x))
  end.

(** IsStrictlyEqual, the [===] operator: objects are equal when they are
    the same object. *)
Definition strict_equals (a b : JsAny) : bool :=
  match a, b with
  | Cell VUndefined, Cell VUndefined => true
  | Cell VNull, Cell VNull => true
  | Cell (VBool x), Cell (VBool y) => Bool.eqb x y
  | Cell (VNumber x), Cell (VNumber y) => num_equal x y
  | Cell (VString x), Cell (VString y) => String.eqb x y
  | Cell (VDate r1 _), Cell (VDate r2 _) => Nat.eqb r1 r2
  | Object o1, Object o2 => bool_decide (o1 = o2)
  | _, _ => false
  end.

(** SameValueZero, the equality of [Set] members: as [===] except that
    NaN is the same value as NaN. *)
Definition same_value_zero (a b : JsValue) : bool :=
  match a, b with
  | VNumber NaN, VNumber NaN => true
  | _, _ => strict_equals a b
  end.

(** [value instanceof Date]. *)
Definition instanceof_Date (v : JsAny) : bool :=
  match v with Cell (VDate _ _) => true | _ => false end.

(** [d.getTime()] of a Date (the argument is a Date wherever the source
    calls it). *)
Definition getTime (v : JsAny) : JsNum :=
  match v with Cell (VDate _ t) => t | _ => NaN end.

(** [a ?? b]. *)
Definition nullish_coalesce (a b : JsAny) : JsAny :=
  match a with
  | Cell VUndefined | Cell VNull => b
  | _ => a
  end.

(** The conversions of the runtime that are taken as given: the numeric
    value of a string literal (rounded to a double by the runtime), the
    text of a value used as a property key, and the text a function or a
    prototype object converts to (the source text of a function).  Only
    the two equations below are relied upon. *)
Class Runtime := {
  StringToNumber : string -> JsNum;
  StringToNumber_empty : StringToNumber "" = Fin 0;
  ToString : JsValue -> string;
  ToString_string : forall s, ToString (VString s) = s;
  ObjectToString : Builtin -> string
}.

Section Comparison.
Context `{Runtime}.

(** ToPrimitive with hint number: a Date answers its time value; a
    function or a prototype object, whose [valueOf] answers the object
    itself, answers its text. *)
Definition ToPrimitive (v : JsAny) : JsValue :=
  match v with
  | Cell (VDate _ t) => VNumber t
  | Cell primitive => primitive
  | Object o => VString (ObjectToString o)
  end.

(** ToNumber of a primitive. *)
Definition ToNumber (v : JsValue) : JsNum :=
  match v with
  | VUndefined => NaN
  | VNull => Fin 0
  | VBool true => Fin 1
  | VBool false => Fin 0
  | VNumber n => n
  | VString s => StringToNumber s
  | VDate _ t => t
  end.

(** IsLessThan(x, y): strings compare by code units, everything else
    numerically; [None] is undefined. *)
Definition IsLessThan (x y : JsAny) : option bool :=
  match ToPrimitive x, ToPrimitive y with
  | VString a, VString b => Some (String.ltb a b)
  | px, py => num_lessThan (ToNumber px) (ToNumber py)
  end.

(** [x < y]: undefined counts as false. *)
Definition less_than (x y : JsAny) : bool :=
  match IsLessThan x y with
  | Some b => b
  | None => false
  end.

(** [x > y] is IsLessThan(y, x). *)
Definition greater_than (x y : JsAny) : bool :=
  match IsLessThan y x with
  | Some b => b
  | None => false
  end.

End Comparison.

End Js.

(* ===================================================================== *)
(** ** Property reads                                                    *)
(* ===================================================================== *)

Module Property.

(** The string-keyed members of [Object.prototype] other than the accessor
    [__proto__], those of [ActiveTableRow.prototype], and those of
    [Date.prototype]. *)
Definition object_members : list string :=
  [ "constructor"; "__defineGetter__"; "__defineSetter__"; "hasOwnProperty";
    "__lookupGetter__"; "__lookupSetter__"; "isPrototypeOf";
    "propertyIsEnumerable"; "toString"; "valueOf"; "toLocaleString" ].

Definition row_members : list string :=
  [ "constructor"; "isPersisted"; "save"; "delete"; "update"; "cellOf" ].

Definition date_members : list string :=
  [ "constructor"; "toString"; "toDateString"; "toTimeString"; "toISOString";
    "toUTCString"; "toGMTString"; "getDate"; "setDate"; "getDay";
    "getFullYear"; "setFullYear"; "getHours"; "setHours"; "getMilliseconds";
    "setMilliseconds"; "getMinutes"; "setMinutes"; "getMonth"; "setMonth";
    "getSeconds"; "setSeconds"; "getTime"; "setTime"; "getTimezoneOffset";
    "getUTCDate"; "setUTCDate"; "getUTCDay"; "getUTCFullYear";
    "setUTCFullYear"; "getUTCHours"; "setUTCHours"; "getUTCMilliseconds";
    "setUTCMilliseconds"; "getUTCMinutes"; "setUTCMinutes"; "getUTCMonth";
    "setUTCMonth"; "getUTCSeconds"; "setUTCSeconds"; "valueOf"; "getYear";
    "setYear"; "toJSON"; "toLocaleString"; "toLocaleDateString";
    "toLocaleTimeString" ].

(** The prototype of an object: [Object.prototype] for a plain object,
    [ActiveTableRow.prototype] for a Row, or what an assignment to
    [__proto__] has put in its place, a Date or null. *)
Inductive Prototype :=
| ObjectProto
| RowProto
| DateProto (ref : nat) (time : JsNum)
| NullProto.

(** What [Object.prototype] holds under a key, for an object whose
    prototype is [prototype]: the accessor [__proto__] answers that
    prototype. *)
Definition of_Object (prototype : JsAny) (key : string) : option JsAny :=
  if decide (key = "__proto__") then Some prototype
  else if decide (key ∈ object_members) then Some (Object (ObjectMember key))
  else None.

(** What the prototype chain holds under a key: the nearest prototype that
    has the key wins.  [Date.prototype.toGMTString] is the function
    [Date.prototype.toUTCString]. *)
Definition inherited (p : Prototype) (key : string) : option JsAny :=
  match p with
  | ObjectProto => of_Object (Object ObjectPrototype) key
  | RowProto =>
      if decide (key ∈ row_members) then Some (Object (RowMember key))
      else of_Object (Object RowPrototype) key
  | DateProto ref time =>
      if decide (key = "toGMTString") then Some (Object (DateMember "toUTCString"))
      else if decide (key ∈ date_members) then Some (Object (DateMember key))
      else of_Object (Cell (VDate ref time)) key
  | NullProto => None
  end.

(** An object whose properties the source reads by key: a plain object,
    given by its own properties, or a Row, given by what has been assigned
    to it key by key. *)
Inductive JsObject :=
| Plain (own : gmap string JsValue)
| Instance (assigned : gmap string JsValue).

(** An assignment [row[key] = value] defines an own property, except
    under the key [__proto__]: that assignment reaches the setter the Row
    inherits, which defines no property, replaces the prototype of the Row
    when the value is null or an object, and does nothing otherwise.  The
    value last assigned under that key is kept with the others, and the
    prototype is read off it. *)
Definition prototype_of (assigned : gmap string JsValue) : Prototype :=
  match assigned !! "__proto__" with
  | Some VNull => NullProto
  | Some (VDate ref time) => DateProto ref time
  | _ => RowProto
  end.

(** [obj[key]]: the own property, or else what the prototype chain holds,
    or else undefined. *)
Definition read (obj : JsObject) (key : string) : JsAny :=
  match obj with
  | Plain own =>
      match own !! key with
      | Some v => Cell v
      | None => default (Cell VUndefined) (inherited ObjectProto key)
      end
  | Instance assigned =>
      if decide (key = "__proto__")
      then default (Cell VUndefined) (inherited (prototype_of assigned) key)
      else match assigned !! key with
           | Some v => Cell v
           | None => default (Cell VUndefined) (inherited (prototype_of assigned) key)
           end
  end.

End Property.

(* ===================================================================== *)
(** ** The store: sheets, the calls they receive, and the object heap    *)
(* ===================================================================== *)

(** [{ column: number; name: string }], one per header cell. *)
Record Attribute := {
  column : nat;
  name : string
}.

(** An [ActiveTable] instance: the sheet it was opened on (sheets are
    designated by their name) and the column descriptors read at
    construction.  The [TableOperable] capability handed to the rows is the
    table itself, restricted to [create], [deleteRow] and [updateRow]. *)
Record ActiveTable := {
  sheet : string;
  attributes : list Attribute
}.

(** An [ActiveTableRow] instance: what has been assigned to it key by key
    (its own enumerable properties and, under the key [__proto__], which
    is no property, the value handed to the setter the Row inherits: see
    [Property.prototype_of]), the private [#rowNumber] ([None] is null)
    and the private [#table]. *)
Record ActiveTableRow := {
  fields : gmap string JsValue;
  rowNumber : option nat;
  table : ActiveTable
}.

(** A mutation call received by a sheet, with the values the source hands
    to it. *)
Inductive SheetCall :=
| AppendRow (sheetName : string) (values : list JsAny)
| DeleteRow (sheetName : string) (rowPosition : nat)
| SetValues (sheetName : string) (row col numRows numColumns : nat)
            (values : list (list JsAny)).

(** The state a call runs in: the spreadsheet (what [getValues] answers for
    each sheet, header row first), the mutation calls issued so far (oldest
    first), the Row objects by reference, and the [ActiveTableRowArray]
    objects by reference, each holding references to Rows. *)
Record World := {
  sheets : gmap string (list (list JsValue));
  calls : list SheetCall;
  heap : list ActiveTableRow;
  arrays : list (list nat)
}.

(** What a method throws: an [Error] with its message, or the TypeError the
    runtime raises on reading a property of undefined or on calling a
    value that is no function. *)
Inductive Exception :=
| Error (message : string)
| TypeError.

Inductive Completion (A : Type) :=
| Normal (a : A)
| Throw (e : Exception).
Arguments Normal {A} a.
Arguments Throw {A} e.

(** A method body: it runs in a world, completes normally or throws, and
    leaves a world behind. *)
Definition Op (A : Type) : Type := World -> Completion A * World.

Definition ret {A} (a : A) : Op A := fun w => (Normal a, w).

Definition throw {A} (e : Exception) : Op A := fun w => (Throw e, w).

Definition bind {A B} (m : Op A) (k : A -> Op B) : Op B :=
  fun w =>
    match m w with
    | (Normal a, w') => k a w'
    | (Throw e, w') => (Throw e, w')
    end.

Notation "x <- m ;; k" := (bind m (fun x => k))
  (at level 100, m at next level, right associativity).
Notation "m ;;; k" := (bind m (fun _ => k))
  (at level 100, right associativity).

(** [array.forEach(f)]: the calls are made in index order and stop at the
    first one that throws. *)
Fixpoint forEach {A} (items : list A) (f : A -> Op unit) : Op unit :=
  match items with
  | [] => ret tt
  | x :: rest => f x ;;; forEach rest f
  end.

(** A double quote, for the messages. *)
Definition dquote : string := String (Ascii.ascii_of_nat 34) EmptyString.

Module Store.

(** The own property [key] of an object, undefined when it has none. *)
Definition get (obj : gmap string JsValue) (key : string) : JsValue :=
  default VUndefined (obj !! key).

(** [row[i]] on a row of cells. *)
Definition cell (row : list JsValue) (i : nat) : JsValue :=
  default VUndefined (row !! i).

(** [sheet.getDataRange().getValues()]. *)
Definition getValues (w : World) (sheetName : string) : list (list JsValue) :=
  default [] (sheets w !! sheetName).

(** Deleting the row at a 1-based position shifts the rows below it up. *)
Definition grid_deleteRow (rowPosition : nat) (grid : list (list JsValue))
  : list (list JsValue) :=
  match rowPosition with
  | 0 => grid
  | S i => base.delete i grid
  end.

(** Writing [values] over the first cells of the row at a 1-based
    position; rows between the data and a position beyond it are blank. *)
Definition grid_setRow (rowPosition : nat) (values : list JsValue)
    (grid : list (list JsValue)) : list (list JsValue) :=
  match rowPosition with
  | 0 => grid
  | S i =>
      let written := values ++ drop (length values) (default [] (grid !! i)) in
      if decide (i < length grid) then <[i := written]> grid
      else grid ++ replicate (i - length grid) [] ++ [written]
  end.

(** The cells a sheet keeps of the values it is handed: a sheet holds cell
    values only, and keeps nothing of a call one of whose values is a
    function or a prototype object. *)
Definition cells (values : list JsAny) : option (list JsValue) :=
  mapM (fun v => match v with Cell c => Some c | Object _ => None end) values.

(** The effect of a call on the spreadsheet. *)
Definition apply_call (c : SheetCall)
    (ss : gmap string (list (list JsValue))) : gmap string (list (list JsValue)) :=
  match c with
  | AppendRow s values =>
      match cells values with
      | Some row => alter (fun grid => grid ++ [row]) s ss
      | None => ss
      end
  | DeleteRow s p => alter (grid_deleteRow p) s ss
  | SetValues s r _ _ _ values =>
      match cells (default [] (values !! 0)) with
      | Some row => alter (grid_setRow r row) s ss
      | None => ss
      end
  end.

(** Issue a call: the sheet changes and the call is recorded. *)
Definition issue (c : SheetCall) : Op unit :=
  fun w => (Normal tt,
            {| sheets := apply_call c (sheets w);
               calls := calls w ++ [c];
               heap := heap w;
               arrays := arrays w |}).

(** [new ActiveTableRow(...)] and property or private-field writes. *)
Definition set_heap (h : list ActiveTableRow) (w : World) : World :=
  {| sheets := sheets w; calls := calls w; heap := h; arrays := arrays w |}.

Definition set_arrays (a : list (list nat)) (w : World) : World :=
  {| sheets := sheets w; calls := calls w; heap := heap w; arrays := a |}.

(** [new ActiveTableRowArray(...items)]: a fresh array object. *)
Definition new_array (items : list nat) : Op nat :=
  fun w => (Normal (length (arrays w)), set_arrays (arrays w ++ [items]) w).

(** The elements of an array object, in index order. *)
Definition items (w : World) (array : nat) : list nat :=
  default [] (arrays w !! array).

End Store.

Module Heap.

(** [row[key]] on a Row object. *)
Definition prop (w : World) (r : nat) (key : string) : JsAny :=
  match heap w !! r with
  | Some row => Property.read (Property.Instance (fields row)) key
  | None => VUndefined
  end.

(** The Row object a reference designates.  A reference held by the
    program always designates an object; [None] only arises for a number
    that is no reference of the world. *)
Definition load (r : nat) : Op (option ActiveTableRow) :=
  fun w => (Normal (heap w !! r), w).

(** A write to the object [r] designates. *)
Definition modify (r : nat) (f : ActiveTableRow -> ActiveTableRow) : Op unit :=
  fun w => (Normal tt, Store.set_heap (alter f r (heap w)) w).

(** [this[key] = value]. *)
Definition set_field (key : string) (value : JsValue) (row : ActiveTableRow)
  : ActiveTableRow :=
  {| fields := <[key := value]> (fields row);
     rowNumber := rowNumber row;
     table := table row |}.

(** [this.#rowNumber = n]. *)
Definition set_rowNumber (n : option nat) (row : ActiveTableRow) : ActiveTableRow :=
  {| fields := fields row; rowNumber := n; table := table row |}.

End Heap.

(* ===================================================================== *)
(** ** The capability a table hands to its rows ([TableOperable])        *)
(* ===================================================================== *)

Module Operable.

(** [this.attributes.map(attr => obj[attr.name] ?? '')]. *)
Definition values (attrs : list Attribute) (obj : Property.JsObject)
  : list JsAny :=
  map (fun attr =>
         Js.nullish_coalesce (Property.read obj (name attr)) (VString ""))
      attrs.

(** [ActiveTable.create], which is also [addRow]. *)
Definition create (t : ActiveTable) (obj : Property.JsObject) : Op unit :=
  Store.issue (AppendRow (sheet t) (values (attributes t) obj)).

(** [ActiveTable.#deleteRow]. *)
Definition deleteRow (t : ActiveTable) (rowNumber : nat) : Op unit :=
  Store.issue (DeleteRow (sheet t) rowNumber).

(** [ActiveTable.#updateRow]: one write of the whole row. *)
Definition updateRow (t : ActiveTable) (index : nat)
    (row : Property.JsObject) : Op unit :=
  Store.issue (SetValues (sheet t) index 1 1 (length (attributes t))
                         [values (attributes t) row]).

End Operable.

(* ===================================================================== *)
(** ** [ActiveTableRow]                                                  *)
(* ===================================================================== *)

Module Row.

(** [isPersisted()]. *)
Definition isPersisted (this : nat) : Op bool :=
  r <- Heap.load this ;;
  match r with
  | Some row => ret (bool_decide (rowNumber row <> None))
  | None => ret false
  end.

(** [save()]: the Row hands itself to the table. *)
Definition save (this : nat) : Op unit :=
  r <- Heap.load this ;;
  match r with
  | Some row =>
      match rowNumber row with
      | None => Operable.create (table row) (Property.Instance (fields row))
      | Some n => Operable.updateRow (table row) n (Property.Instance (fields row))
      end
  | None => ret tt
  end.

(** [delete()]. *)
Definition delete (this : nat) : Op unit :=
  r <- Heap.load this ;;
  match r with
  | Some row =>
      match rowNumber row with
      | Some n => Operable.deleteRow (table row) n
      | None => ret tt
      end ;;;
      Heap.modify this (Heap.set_rowNumber None)
  | None => ret tt
  end.

(** [update(obj)]. *)
Definition update (this : nat) (obj : gmap string JsValue) : Op unit :=
  forEach (map_to_list obj)
          (fun entry => Heap.modify this (Heap.set_field entry.1 entry.2)) ;;;
  r <- Heap.load this ;;
  match r with
  | Some row =>
      match rowNumber row with
      | Some n => Operable.updateRow (table row) n (Property.Instance (fields row))
      | None => ret tt
      end
  | None => ret tt
  end.

End Row.

(* ===================================================================== *)
(** ** [ActiveTableRowArray]                                             *)
(* ===================================================================== *)

Module RowArray.

(** The test of [where] on one criterion, given the row's value. *)
Definition where_test (rowValue value : JsAny) : bool :=
  if Js.instanceof_Date value && Js.instanceof_Date rowValue
  then Js.strict_equals (VNumber (Js.getTime value)) (VNumber (Js.getTime rowValue))
  else Js.strict_equals rowValue value.

(** [Object.entries(obj).every(...)] on the row [r]. *)
Definition every (w : World) (r : nat) (obj : gmap string JsValue)
    (test : JsAny -> JsAny -> bool) : bool :=
  forallb (fun entry : string * JsValue => test (Heap.prop w r entry.1) entry.2)
          (map_to_list obj).

(** [where(obj)]. *)
Definition where_ (this : nat) (obj : gmap string JsValue) : Op nat :=
  fun w =>
    let filteredRows :=
      List.filter (fun r => every w r obj where_test) (Store.items w this) in
    Store.new_array filteredRows w.

Section Ordered.
Context `{Js.Runtime}.

(** The test of [before] on one criterion. *)
Definition before_test (rowValue value : JsAny) : bool :=
  negb (Js.strict_equals rowValue VNull)
  && negb (Js.strict_equals rowValue (VString ""))
  && Js.less_than rowValue value.

(** [after(obj)]. *)
Definition after (this : nat) (obj : gmap string JsValue) : Op nat :=
  fun w =>
    let filteredRows :=
      List.filter (fun r => every w r obj Js.greater_than) (Store.items w this) in
    Store.new_array filteredRows w.

(** [before(obj)]. *)
Definition before (this : nat) (obj : gmap string JsValue) : Op nat :=
  fun w =>
    let filteredRows :=
      List.filter (fun r => every w r obj before_test) (Store.items w this) in
    Store.new_array filteredRows w.

End Ordered.

(** [this.reverse()]: in place, answering the receiver. *)
Definition reverse (this : nat) : Op nat :=
  fun w => (Normal this, Store.set_arrays (alter reverse this (arrays w)) w).

(** The elements an iteration over the array visits. *)
Definition elements (this : nat) : Op (list nat) :=
  fun w => (Normal (Store.items w this), w).

(** A method call [row.m(...)] where [m] is a method of the class: the
    property [m] is read on the Row and the value read is called.  The
    read answers the method unless a field of that name hides it or the
    prototype has been replaced; what it answers then is a cell value or
    undefined, and calling that is a TypeError.  [body] is the method
    applied to the Row and the arguments. *)
Definition call (row : nat) (method : string) (body : Op unit) : Op unit :=
  r <- Heap.load row ;;
  match r with
  | Some object =>
      match Property.read (Property.Instance (fields object)) method with
      | Object (RowMember _) => body
      | _ => throw TypeError
      end
  | None => ret tt
  end.

(** The callback of [deleteAll], [row => row.delete()]. *)
Definition delete_each (row : nat) : Op unit :=
  call row "delete" (Row.delete row).

(** The callback of [updateAll], [row => row.update(obj)]. *)
Definition update_each (obj : gmap string JsValue) (row : nat) : Op unit :=
  call row "update" (Row.update row obj).

(** [deleteAll()]. *)
Definition deleteAll (this : nat) : Op unit :=
  reversed <- reverse this ;;
  rows <- elements reversed ;;
  forEach rows delete_each.

(** [updateAll(obj)]. *)
Definition updateAll (this : nat) (obj : gmap string JsValue) : Op unit :=
  rows <- elements this ;;
  forEach rows (update_each obj).

End RowArray.

(* ===================================================================== *)
(** ** [ActiveTable]                                                     *)
(* ===================================================================== *)

Module Table.

(** [new Set(values)]: the members in insertion order, a value being added
    unless one that is the same under SameValueZero is already there. *)
Definition Set_add (members : list JsValue) (v : JsValue) : list JsValue :=
  if existsb (Js.same_value_zero v) members then members else members ++ [v].

Definition new_Set (values : list JsValue) : list JsValue :=
  foldl Set_add [] values.

(** The messages of the errors thrown. *)
Definition sheet_not_found (sheetName : string) : string :=
  "Sheet with name " +:+ dquote +:+ sheetName +:+ dquote +:+ " not found".

Definition duplicate_values (sheetName : string) : string :=
  "Duplicate values found in the first column of sheet "
    +:+ dquote +:+ sheetName +:+ dquote.

Definition multiple_rows (id : string) : string :=
  "Multiple rows with id " +:+ dquote +:+ id +:+ dquote +:+ " found".

Definition row_not_found (id : string) : string :=
  "Row with id " +:+ dquote +:+ id +:+ dquote +:+ " not found".

(** The Row built for the data row at 0-based [index]: the header row is
    position 1, so the handle is [index + 2]; the fields are assigned
    attribute by attribute. *)
Definition lazyRow (t : ActiveTable) (index : nat) (row : list JsValue)
  : ActiveTableRow :=
  {| fields :=
       foldl (fun fs attr => <[name attr := Store.cell row (column attr - 1)]> fs)
             ∅ (attributes t);
     rowNumber := Some (index + 2);
     table := t |}.

(** [#rows()]: reads the sheet again, allocates one Row per data row and
    the array that holds them. *)
Definition rows (t : ActiveTable) : Op nat :=
  fun w =>
    let rows := drop 1 (Store.getValues w (sheet t)) in
    let lazyRows := imap (lazyRow t) rows in
    let refs := seq (length (heap w)) (length lazyRows) in
    Store.new_array refs (Store.set_heap (heap w ++ lazyRows) w).

(** [all()]. *)
Definition all (t : ActiveTable) : Op nat := rows t.

(** [where(obj)]. *)
Definition where_ (t : ActiveTable) (obj : gmap string JsValue) : Op nat :=
  a <- rows t ;; RowArray.where_ a obj.

(** [find(id)].  The callback of [filter] reads [this.attributes[0].name],
    a TypeError when there is no attribute; it runs once per row. *)
Definition find (t : ActiveTable) (id : string) : Op nat :=
  a <- rows t ;;
  all <- RowArray.elements a ;;
  match attributes t, all with
  | [], _ :: _ => throw TypeError
  | attrs, _ =>
      fun w =>
        let key := default "" (name <$> attrs !! 0) in
        let rows :=
          List.filter
            (fun r => Js.strict_equals (Heap.prop w r key) (VString id)) all in
        if decide (1 < length rows) then throw (Error (multiple_rows id)) w
        else match rows !! 0 with
             | None => throw (Error (row_not_found id)) w
             | Some row => ret row w
             end
  end.

(** [create(obj)], called with a plain object. *)
Definition create (t : ActiveTable) (obj : gmap string JsValue) : Op unit :=
  Operable.create t (Property.Plain obj).

Section Runtime.
Context `{Js.Runtime}.

(** [after(obj)] and [before(obj)]. *)
Definition after (t : ActiveTable) (obj : gmap string JsValue) : Op nat :=
  a <- rows t ;; RowArray.after a obj.

Definition before (t : ActiveTable) (obj : gmap string JsValue) : Op nat :=
  a <- rows t ;; RowArray.before a obj.

(** The constructor: [headers] is the first row of the grid (a TypeError
    when the grid has none), [rows] the remaining ones. *)
Definition constructor (sheetName : string) (checkUnique : bool)
  : Op ActiveTable :=
  fun w =>
    match Store.getValues w sheetName with
    | [] => throw TypeError w
    | headers :: rows =>
        let attributes :=
          imap (fun index name => {| column := index + 1; name := Js.ToString name |})
               headers in
        let uniqueValues := new_Set (map (fun row => Store.cell row 0) rows) in
        if checkUnique && negb (length uniqueValues =? length rows)
        then throw (Error (duplicate_values sheetName)) w
        else ret {| sheet := sheetName; attributes := attributes |} w
    end.

(** [ActiveTable.bySheetName(sheetName, checkUnique = true)]. *)
Definition bySheetName (sheetName : string) (checkUnique : bool)
  : Op ActiveTable :=
  fun w =>
    match sheets w !! sheetName with
    | None => throw (Error (sheet_not_found sheetName)) w
    | Some _ => constructor sheetName checkUnique w
    end.

End Runtime.

End Table.

(* ===================================================================== *)
(** ** A runtime to evaluate examples with                               *)
(* ===================================================================== *)

Module Example.

(** The value of a string of decimal digits, [None] for any other text. *)
Fixpoint digits (acc : Z) (s : string) : option Z :=
  match s with
  | EmptyString => Some acc
  | String c rest =>
      let d := Ascii.nat_of_ascii c in
      if decide (48 <= d <= 57)%nat
      then digits (10 * acc + Z.of_nat (d - 48)) rest
      else None
  end.

Definition StringToNumber (s : string) : JsNum :=
  match digits 0 s with
  | Some n => Fin (inject_Z n)
  | None => NaN
  end.

Definition ToString (v : JsValue) : string :=
  match v with
  | VString s => s
  | VUndefined => "undefined"
  | VNull => "null"
  | VBool true => "true"
  | VBool false => "false"
  | VNumber _ | VDate _ _ => "NaN"
  end.

(** The text of a native function as V8 prints it, and of a prototype
    object; a method of the class converts to its source text, for which a
    text that is no number stands here. *)
Definition ObjectToString (o : Builtin) : string :=
  match o with
  | ObjectPrototype | RowPrototype => "[object Object]"
  | ObjectMember "constructor" => "function Object() { [native code] }"
  | DateMember "constructor" => "function Date() { [native code] }"
  | ObjectMember name | DateMember name =>
      "function " +:+ name +:+ "() { [native code] }"
  | RowMember name => name +:+ "() { }"
  end.

(** This runtime agrees with ECMAScript on strings of decimal digits short
    enough to denote a double exactly, on the empty string and on text
    used as a key; the examples below stay within that. *)
Definition runtime : Js.Runtime :=
  {| Js.StringToNumber := StringToNumber;
     Js.StringToNumber_empty := eq_refl;
     Js.ToString := ToString;
     Js.ToString_string := fun _ => eq_refl;
     Js.ObjectToString := ObjectToString |}.

(** A world with one sheet and nothing else. *)
Definition world (sheetName : string) (grid : list (list JsValue)) : World :=
  {| sheets := {[ sheetName := grid ]}; calls := []; heap := []; arrays := [] |}.

Definition num (n : Z) : JsValue := VNumber (Fin (inject_Z n)).

(** The sheet of the test suite. *)
Definition users : list (list JsValue) :=
  [ [VString "id"; VString "name"; VString "status"];
    [VString "user1"; VString "Alice"; VString "active"];
    [VString "user2"; VString "Bob"; VString "inactive"] ].

(** The table the constructor builds on that sheet, and the world after
    [all()] has been called once on it: Rows 0 and 1 at positions 2 and 3,
    held by array 0. *)
Definition table : ActiveTable :=
  {| sheet := "TestSheet";
     attributes := [ {| column := 1; name := "id" |};
                     {| column := 2; name := "name" |};
                     {| column := 3; name := "status" |} ] |}.

Definition loaded : World := (Table.all table (world "TestSheet" users)).2.

(** Five rows whose ages are 25, 30, 35, null and the empty string, read
    as Rows 0 to 4 of array 0. *)
Definition ages : World :=
  (Table.all {| sheet := "People";
                attributes := [ {| column := 1; name := "id" |};
                                {| column := 2; name := "age" |} ] |}
     (world "People"
        [ [VString "id"; VString "age"];
          [VString "p1"; num 25];
          [VString "p2"; num 30];
          [VString "p3"; num 35];
          [VString "p4"; VNull];
          [VString "p5"; VString ""] ])).2.

(** The rows the collection a query answers holds. *)
Definition answer (w : World) (query : Op nat) : list nat :=
  match query w with
  | (Normal a, w') => Store.items w' a
  | (Throw _, _) => []
  end.

End Example.

(* ===================================================================== *)
(** * The vocabulary of the statements                                   *)
(* ===================================================================== *)

(** The definitions below are not part of the program: they name the
    worlds, lists and relations the theorems are stated with. *)

(** ** Rows and what they issue *)

(** The position a Row holds, if any. *)
Definition position (w : World) (r : nat) : option nat :=
  heap w !! r ≫= rowNumber.

(** The [deleteRow] call a [delete()] on the Row [r] issues in [w], if any. *)
Definition deletion (w : World) (r : nat) : option SheetCall :=
  row ← heap w !! r;
  n ← rowNumber row;
  Some (DeleteRow (sheet (table row)) n).

(** The world one [delete()] leaves, whatever the row. *)
Definition deleted (r : nat) (w : World) : World :=
  match deletion w r with
  | Some c =>
      {| sheets := Store.apply_call c (sheets w);
         calls := calls w ++ [c];
         heap := alter (Heap.set_rowNumber None) r (heap w);
         arrays := arrays w |}
  | None => w
  end.

(** The world a [delete()] on a persisted row leaves. *)
Definition after_delete (this : nat) (row : ActiveTableRow) (n : nat)
    (w : World) : World :=
  {| sheets := Store.apply_call (DeleteRow (sheet (table row)) n) (sheets w);
     calls := calls w ++ [DeleteRow (sheet (table row)) n];
     heap := alter (Heap.set_rowNumber None) this (heap w);
     arrays := arrays w |}.

(** The assignments [this[key] = value], entry by entry. *)
Definition assign (entries : list (string * JsValue)) (row : ActiveTableRow)
  : ActiveTableRow :=
  foldl (fun r entry => Heap.set_field entry.1 entry.2 r) row entries.

(** The row [update(obj)] leaves in the heap. *)
Definition merged (obj : gmap string JsValue) (row : ActiveTableRow)
  : ActiveTableRow :=
  {| fields := obj ∪ fields row; rowNumber := rowNumber row; table := table row |}.

(** A mutation call on a Row. *)
Inductive Mutation :=
| Save
| Update (obj : gmap string JsValue)
| Delete.

(** The method a mutation stands for. *)
Definition mutate (this : nat) (m : Mutation) : Op unit :=
  match m with
  | Save => Row.save this
  | Update obj => Row.update this obj
  | Delete => Row.delete this
  end.

(** The fields of a row after a sequence of mutations: only [update]
    changes them. *)
Definition memory (fs : gmap string JsValue) (ms : list Mutation)
  : gmap string JsValue :=
  foldl (fun fs m => match m with Update obj => obj ∪ fs | _ => fs end) fs ms.

(** The calls a row without a position issues over a sequence of mutations:
    one [appendRow] per [save()], carrying the fields as they are then. *)
Fixpoint appended (t : ActiveTable) (fs : gmap string JsValue)
    (ms : list Mutation) : list SheetCall :=
  match ms with
  | [] => []
  | Save :: ms => AppendRow (sheet t)
                            (Operable.values (attributes t) (Property.Instance fs))
                  :: appended t fs ms
  | Update obj :: ms => appended t (obj ∪ fs) ms
  | Delete :: ms => appended t fs ms
  end.

(** ** Collections *)

(** The Row [r] answers to the method: reading the property of that name
    on it gives the method of the class. *)
Definition answers (w : World) (r : nat) (method : string) : Prop :=
  forall row,
    heap w !! r = Some row ->
    Property.read (Property.Instance (fields row)) method = Object (RowMember method).

(** The world a query leaves: one more array, nothing else changed. *)
Definition with_new_array (kept : list nat) (w : World) : World :=
  Store.set_arrays (arrays w ++ [kept]) w.

(** The members of [l] in the order of their first occurrence. *)
Definition first_visits (l : list nat) : list nat :=
  reverse (remove_dups (reverse l)).


(** [ri] precedes [rj] in the store when, both holding a position, that of
    [ri] is the smaller one. *)
Definition precedes (w : World) (ri rj : nat) : Prop :=
  forall p q, position w ri = Some p -> position w rj = Some q -> p < q.

(** A collection is in store order when each member precedes every member
    that comes after it.  Collections read from a table are, and filtering
    keeps them so. *)
Definition in_store_order (w : World) (members : list nat) : Prop :=
  StronglySorted (precedes w) members.

(** ** Reads of a table *)

(** The data rows of a table's sheet: everything below the header row. *)
Definition data_rows (w : World) (t : ActiveTable) : list (list JsValue) :=
  drop 1 (Store.getValues w (sheet t)).

(** The world a read of the table leaves: one new Row per data row and one
    new array holding them. *)
Definition after_read (t : ActiveTable) (w : World) : World :=
  {| sheets := sheets w;
     calls := calls w;
     heap := heap w ++ imap (Table.lazyRow t) (data_rows w t);
     arrays := arrays w ++ [seq (length (heap w)) (length (data_rows w t))] |}.

(** The column a key designates in a Row: the last one of that name. *)
Definition last_named (key : string) (attrs : list Attribute) : option Attribute :=
  last (filter (fun attr => name attr = key) attrs).



(** The value [create] hands over for a column: the property of that
    name when the object has one that is neither undefined nor null, the
    empty string when it has one that is; and, when it has none, the member
    of that name that a plain object inherits, or the empty string when
    there is no such member. *)
Definition written (obj : gmap string JsValue) (attr : Attribute) : JsAny :=
  match obj !! name attr with
  | Some VUndefined | Some VNull => VString ""
  | Some v => v
  | None => default (Cell (VString ""))
                    (Property.inherited Property.ObjectProto (name attr))
  end.

(** The field of a column's name, or the empty string when the field is
    absent, undefined or null. *)
Definition field_or_empty (obj : gmap string JsValue) (attr : Attribute)
  : JsValue :=
  match obj !! name attr with
  | Some VUndefined | Some VNull | None => VString ""
  | Some v => v
  end.

(** A column name that names no member of [Object.prototype]. *)
Definition plain_name (key : string) : Prop :=
  key <> "__proto__" /\ key ∉ Property.object_members.

(** ** Equality of values *)

(** Two Numbers that are the same number (NaN is no number). *)
Inductive same_number : JsNum -> JsNum -> Prop :=
| same_finite x y : Qeq x y -> same_number (Fin x) (Fin y)
| same_PosInf : same_number PosInf PosInf
| same_NegInf : same_number NegInf NegInf.

(** The equality [where] tests a row's value against the expected value
    with: primitives are equal by value, and two Dates are equal when their
    instants are, whichever objects they are.  A function or a prototype
    object, which a row may answer under the name of a member it inherits,
    is equal to no expected value. *)
Inductive where_equal : JsAny -> JsValue -> Prop :=
| equal_undefined : where_equal VUndefined VUndefined
| equal_null : where_equal VNull VNull
| equal_bool b : where_equal (VBool b) (VBool b)
| equal_number x y : same_number x y -> where_equal (VNumber x) (VNumber y)
| equal_string s : where_equal (VString s) (VString s)
| equal_instant r1 t1 r2 t2 :
    same_number t1 t2 -> where_equal (VDate r1 t1) (VDate r2 t2).

(** Some value of [l] is the same value (SameValueZero) as a member of
    [seen] or as a value that comes before it in [l]. *)
Definition repeats_after (seen l : list JsValue) : Prop :=
  exists l1 b l2, l = l1 ++ b :: l2
                  /\ existsb (Js.same_value_zero b) (seen ++ l1) = true.

(** Some value of [l] is the same value as an earlier one. *)
Definition has_duplicate (l : list JsValue) : Prop := repeats_after [] l.

(** ** Construction *)

(** The table the constructor answers on a grid with a header row. *)
Definition opened `{Js.Runtime} (sheetName : string) (headers : list JsValue) : ActiveTable :=
  {| sheet := sheetName;
     attributes :=
       imap (fun index name => {| column := index + 1; name := Js.ToString name |})
            headers |}.


(** ** Further vocabulary *)

(** The column descriptors of a table are numbered from 1, left to right,
    as the constructor numbers them. *)
Definition numbered (t : ActiveTable) : Prop :=
  forall j attr, attributes t !! j = Some attr -> column attr = j + 1.



(** The query the three filters of a collection are instances of: the
    rows of the receiver that pass [test] on every criterion, in a new
    array. *)
Definition select (test : JsAny -> JsAny -> bool) (this : nat)
    (obj : gmap string JsValue) : Op nat :=
  fun w =>
    Store.new_array
      (List.filter (fun r => RowArray.every w r obj test) (Store.items w this)) w.

(** The rows held by the collection a computation answers ([[]] when it
    throws). *)
Definition result_rows (w : World) (query : Op nat) : list nat :=
  match query w with
  | (Normal a, w') => Store.items w' a
  | (Throw _, _) => []
  end.

(** The three filters of a collection. *)
Definition filters `{Js.Runtime} : list (nat -> gmap string JsValue -> Op nat) :=
  [RowArray.where_; RowArray.after; RowArray.before].

(** The rows of [rows] whose place, counted from [offset], is not in
    [gone]. *)
Fixpoint without_rows {A} (offset : nat) (gone : list nat) (rows : list A)
  : list A :=
  match rows with
  | [] => []
  | row :: rest =>
      if decide (offset ∈ gone) then without_rows (S offset) gone rest
      else row :: without_rows (S offset) gone rest
  end.

(** The reads of a table that answer a collection. *)
Definition reads `{Js.Runtime} : list (ActiveTable -> gmap string JsValue -> Op nat) :=
  [fun t _ => Table.all t; Table.where_; Table.after; Table.before].

(** * Properties                                                         *)
(* ===================================================================== *)

(** ** Worlds and references *)

Lemma set_heap_same w : Store.set_heap (heap w) w = w.
Proof. by destruct w. Qed.

Lemma set_rowNumber_same row :
  rowNumber row = None -> Heap.set_rowNumber None row = row.
Proof. destruct row; simpl; intros ->; reflexivity. Qed.

Lemma alter_fixed {A} (f : A -> A) (l : list A) i x :
  l !! i = Some x -> f x = x -> alter f i l = l.
Proof.
  intros Hx Hf. apply list_eq; intros j.
  destruct (decide (i = j)) as [<-|Hne].
  - rewrite list_lookup_alter_eq, Hx; simpl; by rewrite Hf.
  - by rewrite list_lookup_alter_ne.
Qed.

(** ** [ActiveTableRow.delete] *)

Lemma delete_persisted this w row n :
  heap w !! this = Some row -> rowNumber row = Some n ->
  Row.delete this w = (Normal tt, after_delete this row n w).
Proof.
  intros Hrow Hn. unfold Row.delete, bind, Heap.load. rewrite Hrow, Hn.
  reflexivity.
Qed.

Lemma delete_transient this w row :
  heap w !! this = Some row -> rowNumber row = None ->
  Row.delete this w = (Normal tt, w).
Proof.
  intros Hrow Hn. unfold Row.delete, bind, Heap.load. rewrite Hrow, Hn.
  unfold ret, Heap.modify.
  rewrite (alter_fixed _ _ _ _ Hrow (set_rowNumber_same _ Hn)).
  by rewrite set_heap_same.
Qed.

Lemma delete_dangling this w :
  heap w !! this = None -> Row.delete this w = (Normal tt, w).
Proof. intros Hrow. unfold Row.delete, bind, Heap.load. by rewrite Hrow. Qed.

Lemma isPersisted_eq this w row :
  heap w !! this = Some row ->
  Row.isPersisted this w = (Normal (bool_decide (rowNumber row <> None)), w).
Proof. intros Hrow. unfold Row.isPersisted, bind, Heap.load. by rewrite Hrow. Qed.

(** C8. [delete()] on a persisted Row issues exactly one [deleteRow] call,
    at the position the row holds, and clears the handle, so that
    [isPersisted()] answers false afterwards; a second [delete()] issues no
    call and leaves the world as it is. *)
Theorem delete_issues_one_call_then_none this w row n :
  heap w !! this = Some row -> rowNumber row = Some n ->
  exists w1,
    Row.delete this w = (Normal tt, w1)
    /\ calls w1 = calls w ++ [DeleteRow (sheet (table row)) n]
    /\ sheets w1 = alter (Store.grid_deleteRow n) (sheet (table row)) (sheets w)
    /\ heap w1 !! this = Some (Heap.set_rowNumber None row)
    /\ Row.isPersisted this w1 = (Normal false, w1)
    /\ Row.delete this w1 = (Normal tt, w1).
Proof.
  intros Hrow Hn. exists (after_delete this row n w).
  assert (Hcleared : heap (after_delete this row n w) !! this
                     = Some (Heap.set_rowNumber None row)).
  { simpl. by rewrite list_lookup_alter_eq, Hrow. }
  repeat split; try done.
  - by apply delete_persisted.
  - by rewrite (isPersisted_eq _ _ _ Hcleared).
  - by apply (delete_transient _ _ _ Hcleared).
Qed.

(** ** [ActiveTableRow.save] and [ActiveTableRow.update] *)

Lemma save_transient this w row :
  heap w !! this = Some row -> rowNumber row = None ->
  Row.save this w
  = Operable.create (table row) (Property.Instance (fields row)) w.
Proof. intros Hrow Hn. unfold Row.save, bind, Heap.load. by rewrite Hrow, Hn. Qed.

Lemma save_persisted this w row n :
  heap w !! this = Some row -> rowNumber row = Some n ->
  Row.save this w
  = Operable.updateRow (table row) n (Property.Instance (fields row)) w.
Proof. intros Hrow Hn. unfold Row.save, bind, Heap.load. by rewrite Hrow, Hn. Qed.

Lemma assign_rowNumber entries row : rowNumber (assign entries row) = rowNumber row.
Proof. revert row; induction entries as [|e es IH]; intros row; [done|]. simpl. by rewrite IH. Qed.

Lemma assign_table entries row : table (assign entries row) = table row.
Proof. revert row; induction entries as [|e es IH]; intros row; [done|]. simpl. by rewrite IH. Qed.

Lemma assign_fields_lookup entries row key :
  NoDup entries.*1 ->
  fields (assign entries row) !! key
  = match (list_to_map entries : gmap string JsValue) !! key with
    | Some v => Some v
    | None => fields row !! key
    end.
Proof.
  revert row; induction entries as [|[k v] es IH]; intros row Hnd; [done|].
  apply NoDup_cons in Hnd as [Hk Hnd]. simpl. rewrite IH by done. simpl.
  destruct (decide (k = key)) as [->|Hne].
  - rewrite lookup_insert_eq.
    rewrite (not_elem_of_list_to_map_1 es key) by done.
    by rewrite lookup_insert_eq.
  - rewrite !lookup_insert_ne by done. reflexivity.
Qed.

(** Merging an object into the fields: the object's entries win. *)
Lemma assign_fields obj row :
  fields (assign (map_to_list obj) row) = obj ∪ fields row.
Proof.
  apply map_eq; intros key.
  rewrite assign_fields_lookup by apply NoDup_fst_map_to_list.
  rewrite list_to_map_to_list, lookup_union.
  by destruct (obj !! key), (fields row !! key).
Qed.

Lemma forEach_assign this entries w :
  forEach entries (fun entry => Heap.modify this (Heap.set_field entry.1 entry.2)) w
  = (Normal tt, Store.set_heap (alter (assign entries) this (heap w)) w).
Proof.
  revert w; induction entries as [|e es IH]; intros w; simpl.
  - unfold ret. f_equal.
    replace (alter (assign []) this (heap w)) with (heap w);
      [by rewrite set_heap_same|].
    apply list_eq; intros j. rewrite list_lookup_alter.
    case_decide; [subst j|done]. by destruct (heap w !! this).
  - unfold bind at 1. unfold Heap.modify at 1. rewrite IH. f_equal.
    unfold Store.set_heap; simpl. f_equal.
    by rewrite list_alter_alter_eq.
Qed.

Lemma assign_merged obj row : assign (map_to_list obj) row = merged obj row.
Proof.
  pose proof (assign_fields obj row) as Hf.
  pose proof (assign_rowNumber (map_to_list obj) row) as Hn.
  pose proof (assign_table (map_to_list obj) row) as Ht.
  destruct (assign (map_to_list obj) row); simpl in *; by subst.
Qed.

Lemma alter_insert {A} (f : A -> A) (l : list A) i x :
  l !! i = Some x -> alter f i l = <[i := f x]> l.
Proof.
  intros Hx. apply list_eq; intros j.
  destruct (decide (i = j)) as [<-|Hne].
  - rewrite list_lookup_alter_eq, Hx, list_lookup_insert_eq; [done|].
    by eapply lookup_lt_Some.
  - by rewrite list_lookup_alter_ne, list_lookup_insert_ne.
Qed.

Lemma update_transient this obj w row :
  heap w !! this = Some row -> rowNumber row = None ->
  Row.update this obj w
  = (Normal tt, Store.set_heap (<[this := merged obj row]> (heap w)) w).
Proof.
  intros Hrow Hn. unfold Row.update. unfold bind at 1. rewrite forEach_assign.
  unfold bind, Heap.load. simpl.
  rewrite list_lookup_alter_eq, Hrow. simpl.
  rewrite assign_rowNumber, Hn. unfold ret.
  by rewrite (alter_insert _ _ _ _ Hrow), assign_merged.
Qed.


(** ** What a row does to the store once it is deleted *)

Lemma mutations_of_transient this ms :
  forall w row,
    heap w !! this = Some row -> rowNumber row = None ->
    exists w',
      forEach ms (mutate this) w = (Normal tt, w')
      /\ calls w' = calls w ++ appended (table row) (fields row) ms
      /\ sheets w' = foldl (fun ss c => Store.apply_call c ss) (sheets w)
                           (appended (table row) (fields row) ms)
      /\ heap w' !! this
         = Some {| fields := memory (fields row) ms;
                   rowNumber := None;
                   table := table row |}.
Proof.
  induction ms as [|m ms IH]; intros w row Hrow Hn.
  - exists w. simpl. rewrite app_nil_r. repeat split; try done.
    rewrite Hrow. f_equal. destruct row; simpl in *; by subst.
  - simpl. unfold bind at 1. destruct m as [|obj|]; simpl.
    + rewrite (save_transient _ _ _ Hrow Hn).
      unfold Operable.create, Store.issue.
      set (c := AppendRow _ _).
      edestruct (IH {| sheets := Store.apply_call c (sheets w);
                       calls := calls w ++ [c];
                       heap := heap w; arrays := arrays w |} row)
        as (w' & Hrun & Hcalls & Hsheets & Hheap); [done..|].
      exists w'. rewrite Hrun, Hcalls, Hsheets. simpl.
      by rewrite <- app_assoc.
    + rewrite (update_transient _ _ _ _ Hrow Hn).
      edestruct (IH (Store.set_heap (<[this := merged obj row]> (heap w)) w)
                    (merged obj row))
        as (w' & Hrun & Hcalls & Hsheets & Hheap); [|done|].
      { simpl. apply list_lookup_insert_eq. by eapply lookup_lt_Some. }
      exists w'. by rewrite Hrun, Hcalls, Hsheets, Hheap.
    + rewrite (delete_transient _ _ _ Hrow Hn).
      destruct (IH w row Hrow Hn) as (w' & Hrun & Hcalls & Hsheets & Hheap).
      exists w'. by rewrite Hrun, Hcalls, Hsheets, Hheap.
Qed.

Lemma delete_clears this w0 row0 :
  heap w0 !! this = Some row0 ->
  heap (Row.delete this w0).2 !! this = Some (Heap.set_rowNumber None row0).
Proof.
  intros Hrow. destruct (rowNumber row0) as [n|] eqn:Hn.
  - rewrite (delete_persisted _ _ _ _ Hrow Hn). simpl.
    by rewrite list_lookup_alter_eq, Hrow.
  - rewrite (delete_transient _ _ _ Hrow Hn). simpl.
    by rewrite Hrow, set_rowNumber_same.
Qed.

(** C2, as the code has it.  Once [delete()] has been called on a Row, the
    calls the store receives from any further sequence of [save()],
    [update(fields)] and [delete()] on it are exactly one [appendRow] per
    [save()], carrying the fields the row holds at that moment: [update]
    merges its argument into the fields in memory and issues nothing,
    [delete] issues nothing, and no [deleteRow] or range write is issued. *)
Theorem deleted_row_reaches_store_by_save_only this w0 row0 ms :
  heap w0 !! this = Some row0 ->
  exists w',
    forEach ms (mutate this) (Row.delete this w0).2 = (Normal tt, w')
    /\ calls w' = calls (Row.delete this w0).2
                  ++ appended (table row0) (fields row0) ms
    /\ sheets w' = foldl (fun ss c => Store.apply_call c ss)
                         (sheets (Row.delete this w0).2)
                         (appended (table row0) (fields row0) ms)
    /\ heap w' !! this
       = Some {| fields := memory (fields row0) ms;
                 rowNumber := None;
                 table := table row0 |}.
Proof.
  intros Hrow.
  apply (mutations_of_transient this ms _ (Heap.set_rowNumber None row0)).
  - by apply delete_clears.
  - done.
Qed.

Lemma deleted_row_reaches_store_by_save_only_witness :
  exists w',
    forEach [Update {[ "name" := VString "Carol" ]}; Delete; Save] (mutate 0)
            (Row.delete 0 Example.loaded).2 = (Normal tt, w')
    /\ calls w' = calls (Row.delete 0 Example.loaded).2
                  ++ [AppendRow "TestSheet"
                        [Cell (VString "user1"); Cell (VString "Carol");
                         Cell (VString "active")]].
Proof.
  destruct (deleted_row_reaches_store_by_save_only 0 Example.loaded
              (Table.lazyRow Example.table 0
                 [VString "user1"; VString "Alice"; VString "active"])
              [Update {[ "name" := VString "Carol" ]}; Delete; Save])
    as (w' & Hrun & Hcalls & _).
  - vm_compute. reflexivity.
  - exists w'. split; [exact Hrun|]. rewrite Hcalls. vm_compute. reflexivity.
Defined.

(** C2 as stated fails for [save()]: on the row read at position 2, after
    [delete()] the row is no longer persisted, and [save()] then makes the
    sheet receive an [appendRow] of the row's values. *)
Lemma save_after_delete_appends :
  let w1 := (Row.delete 0 Example.loaded).2 in
  Row.isPersisted 0 w1 = (Normal false, w1)
  /\ calls w1 = [DeleteRow "TestSheet" 2]
  /\ calls (Row.save 0 w1).2
     = [DeleteRow "TestSheet" 2;
        AppendRow "TestSheet"
          [Cell (VString "user1"); Cell (VString "Alice"); Cell (VString "active")]]
  /\ calls (Row.save 0 w1).2 <> calls w1.
Proof. vm_compute. repeat split; try reflexivity. discriminate. Qed.

(** ** Calls of a method through its name *)

(** What a Row answers under delete or update: the method of the class,
    unless a field of that name hides it or the prototype has been
    replaced; a cell value or undefined then. *)
Lemma read_method assigned method :
  method = "delete" \/ method = "update" ->
  Property.read (Property.Instance assigned) method
  = match assigned !! method with
    | Some v => Cell v
    | None => match Property.prototype_of assigned with
              | Property.RowProto => Object (RowMember method)
              | _ => Cell VUndefined
              end
    end.
Proof.
  intros [-> | ->]; unfold Property.read; simpl;
    (destruct (assigned !! _); [done|]);
    by destruct (Property.prototype_of assigned).
Qed.

Lemma answers_iff w r method :
  method = "delete" \/ method = "update" ->
  answers w r method
  <-> forall row, heap w !! r = Some row ->
        fields row !! method = None
        /\ Property.prototype_of (fields row) = Property.RowProto.
Proof.
  intros Hmethod. unfold answers.
  split; intros Hall row Hrow; specialize (Hall row Hrow);
    rewrite (read_method _ _ Hmethod) in *.
  - destruct (fields row !! method); [done|].
    by destruct (Property.prototype_of (fields row)).
  - destruct Hall as [-> ->]. done.
Qed.

(** Answering to a method is a matter of the fields alone. *)
Lemma answers_same_fields w w' r method :
  fields <$> heap w' !! r = fields <$> heap w !! r ->
  answers w r method -> answers w' r method.
Proof.
  intros Hfields Hanswers row' Hrow'. rewrite Hrow' in Hfields.
  destruct (heap w !! r) as [row|] eqn:Hrow; simplify_eq/=.
  rewrite Hfields. by apply Hanswers.
Qed.

Lemma call_answered row method body w object :
  heap w !! row = Some object -> answers w row method ->
  RowArray.call row method body w = body w.
Proof.
  intros Hrow Hanswers. unfold RowArray.call, bind, Heap.load.
  by rewrite Hrow, (Hanswers _ Hrow).
Qed.

Lemma call_dangling row method body w :
  heap w !! row = None -> RowArray.call row method body w = (Normal tt, w).
Proof. intros Hrow. unfold RowArray.call, bind, Heap.load. by rewrite Hrow. Qed.

(** A call of delete or update on a Row that does not answer to it throws
    and changes nothing. *)
Lemma call_hidden row method body w object :
  method = "delete" \/ method = "update" ->
  heap w !! row = Some object ->
  Property.read (Property.Instance (fields object)) method
  <> Object (RowMember method) ->
  RowArray.call row method body w = (Throw TypeError, w).
Proof.
  intros Hmethod Hrow Hread. unfold RowArray.call, bind, Heap.load.
  rewrite Hrow. rewrite (read_method _ _ Hmethod) in *.
  destruct (fields object !! method); [done|].
  by destruct (Property.prototype_of (fields object)).
Qed.

(** ** [ActiveTableRowArray.deleteAll] *)

Lemma delete_deleted r w : Row.delete r w = (Normal tt, deleted r w).
Proof.
  unfold deleted, deletion.
  destruct (heap w !! r) as [row|] eqn:Hrow; simpl.
  - destruct (rowNumber row) as [n|] eqn:Hn; simpl.
    + by rewrite (delete_persisted _ _ _ _ Hrow Hn).
    + by rewrite (delete_transient _ _ _ Hrow Hn).
  - by rewrite delete_dangling.
Qed.

Lemma deleted_heap r w :
  heap (deleted r w) = alter (Heap.set_rowNumber None) r (heap w).
Proof.
  unfold deleted, deletion.
  destruct (heap w !! r) as [row|] eqn:Hrow; simpl.
  - destruct (rowNumber row) as [n|] eqn:Hn; simpl; [done|].
    symmetry. by apply (alter_fixed _ _ _ _ Hrow), set_rowNumber_same.
  - apply list_eq; intros j. rewrite list_lookup_alter.
    case_decide; [subst j|done]. by rewrite Hrow.
Qed.

Lemma deleted_fields r w r' :
  fields <$> heap (deleted r w) !! r' = fields <$> heap w !! r'.
Proof.
  rewrite deleted_heap, list_lookup_alter.
  case_decide; [subst r'|done]. by destruct (heap w !! r).
Qed.

Lemma deleted_arrays r w : arrays (deleted r w) = arrays w.
Proof. unfold deleted. by destruct (deletion w r). Qed.

Lemma deleted_calls r w :
  calls (deleted r w) = calls w ++ option_list (deletion w r).
Proof. unfold deleted. destruct (deletion w r); simpl; [done|]. by rewrite app_nil_r. Qed.

Lemma deleted_sheets r w :
  sheets (deleted r w)
  = foldl (fun ss c => Store.apply_call c ss) (sheets w) (option_list (deletion w r)).
Proof. unfold deleted. by destruct (deletion w r). Qed.

(** After [r.delete()], [r] issues nothing more and the other rows are as
    before. *)
Lemma deletion_deleted r w r' :
  deletion (deleted r w) r' = if decide (r' = r) then None else deletion w r'.
Proof.
  unfold deletion at 1. rewrite deleted_heap, list_lookup_alter.
  case_decide as Heq; case_decide as Heq'; try congruence.
  - by destruct (heap w !! r).
  - done.
Qed.

Lemma position_deleted r w r' :
  position (deleted r w) r' = if decide (r' = r) then None else position w r'.
Proof.
  unfold position at 1. rewrite deleted_heap, list_lookup_alter.
  case_decide as Heq; case_decide as Heq'; try congruence.
  - by destruct (heap w !! r).
  - done.
Qed.

Lemma omap_deletion_deleted r w (l : list nat) :
  omap (deletion (deleted r w)) l = omap (deletion w) (filter (fun r' => r' <> r) l).
Proof.
  induction l as [|x l IH]; [done|].
  rewrite filter_cons. cbn [omap list_omap]. rewrite deletion_deleted, IH.
  destruct (decide (x = r)) as [->|Hne].
  - by rewrite decide_False by (intros ?; done).
  - by rewrite decide_True by done.
Qed.

(** The members in the order [deleteAll] reaches them for the first time:
    a Row object that occurs several times counts where it occurs last. *)
Lemma remove_dups_snoc (l : list nat) r :
  remove_dups (l ++ [r]) = filter (fun x => x <> r) (remove_dups l) ++ [r].
Proof.
  induction l as [|x l IH]; [done|].
  simpl. rewrite IH.
  destruct (decide_rel elem_of x (l ++ [r])) as [Hin|Hnin];
    destruct (decide_rel elem_of x l) as [Hin'|Hnin']; try done.
  - apply elem_of_app in Hin as [?|Hr]; [done|].
    apply list_elem_of_singleton in Hr as ->.
    rewrite filter_cons. by rewrite decide_False by (intros ?; done).
  - exfalso. apply Hnin, elem_of_app. by left.
  - rewrite filter_cons, decide_True; [done|].
    intros ->. apply Hnin, elem_of_app. right. by apply list_elem_of_singleton.
Qed.

Lemma first_visits_cons r l :
  first_visits (r :: l) = r :: filter (fun x => x <> r) (first_visits l).
Proof.
  unfold first_visits. rewrite reverse_cons, remove_dups_snoc.
  by rewrite reverse_app, reverse_singleton, filter_reverse.
Qed.

(** [row.delete()] is [delete()] on a Row that answers to it. *)
Lemma delete_each_answered r w :
  answers w r "delete" -> RowArray.delete_each r w = (Normal tt, deleted r w).
Proof.
  intros Hanswers. unfold RowArray.delete_each.
  destruct (heap w !! r) as [row|] eqn:Hrow.
  - by rewrite (call_answered _ _ _ _ _ Hrow Hanswers), delete_deleted.
  - rewrite (call_dangling _ _ _ _ Hrow).
    unfold deleted, deletion. by rewrite Hrow.
Qed.

(** It either does what [delete()] does or throws and changes nothing. *)
Lemma delete_each_cases r w :
  RowArray.delete_each r w = (Normal tt, deleted r w)
  \/ RowArray.delete_each r w = (Throw TypeError, w).
Proof.
  destruct (heap w !! r) as [row|] eqn:Hrow.
  - pose proof (read_method (fields row) "delete" (or_introl eq_refl)) as Hread.
    assert (Hcases :
      Property.read (Property.Instance (fields row)) "delete"
      = Object (RowMember "delete")
      \/ exists v, Property.read (Property.Instance (fields row)) "delete" = Cell v).
    { rewrite Hread. destruct (fields row !! "delete"); [by eauto|].
      destruct (Property.prototype_of (fields row)); by eauto. }
    destruct Hcases as [Hmethod|[v Hcell]].
    + left. apply delete_each_answered. intros row' Hrow'. by simplify_eq.
    + right. apply (call_hidden _ _ _ _ row); [by left|done|].
      by rewrite Hcell.
  - left. apply delete_each_answered. intros row' Hrow'. by simplify_eq.
Qed.

(** Running [row.delete()] over a list of rows that answer to it, in
    order. *)
Lemma forEach_delete (l : list nat) :
  forall w,
    Forall (fun r => answers w r "delete") l ->
    exists w',
      forEach l RowArray.delete_each w = (Normal tt, w')
      /\ calls w' = calls w ++ omap (deletion w) (first_visits l)
      /\ sheets w' = foldl (fun ss c => Store.apply_call c ss) (sheets w)
                           (omap (deletion w) (first_visits l))
      /\ arrays w' = arrays w
      /\ (forall r, position w' r = if decide (r ∈ l) then None else position w r)
      /\ (forall r, fields <$> heap w' !! r = fields <$> heap w !! r).
Proof.
  induction l as [|r l IH]; intros w Hanswer.
  - exists w. simpl. rewrite app_nil_r. repeat split; done.
  - apply Forall_cons in Hanswer as [Hr Hl].
    simpl. unfold bind. rewrite (delete_each_answered _ _ Hr).
    destruct (IH (deleted r w))
      as (w' & Hrun & Hcalls & Hsheets & Harr & Hpos & Hfields).
    { eapply Forall_impl; [exact Hl|]. intros r'.
      apply answers_same_fields, deleted_fields. }
    exists w'. rewrite Hrun, Hcalls, Hsheets, Harr, first_visits_cons.
    rewrite deleted_calls, deleted_sheets, deleted_arrays, omap_deletion_deleted.
    repeat split; try done.
    + rewrite <- app_assoc. f_equal. simpl. by destruct (deletion w r).
    + simpl. by destruct (deletion w r).
    + intros r'. rewrite Hpos, position_deleted.
      destruct (decide (r' = r)) as [->|Hne].
      * rewrite (decide_True (P := r ∈ r :: l)) by (apply elem_of_cons; by left).
        by case_decide.
      * destruct (decide (r' ∈ l)) as [Hin|Hnin].
        -- by rewrite decide_True by (apply elem_of_cons; by right).
        -- rewrite decide_False; [done|].
           rewrite elem_of_cons. tauto.
    + intros r'. by rewrite Hfields, deleted_fields.
Qed.

(** Whatever the rows, the iteration completes or throws a TypeError, and
    leaves the arrays as they are. *)
Lemma forEach_delete_arrays (l : list nat) :
  forall w, exists c w',
    forEach l RowArray.delete_each w = (c, w')
    /\ (c = Normal tt \/ c = Throw TypeError)
    /\ arrays w' = arrays w.
Proof.
  induction l as [|r l IH]; intros w.
  - exists (Normal tt), w. repeat split; by try left.
  - simpl. unfold bind.
    destruct (delete_each_cases r w) as [-> | ->].
    + destruct (IH (deleted r w)) as (c & w' & Hrun & Hc & Harr).
      exists c, w'. by rewrite Hrun, Harr, deleted_arrays.
    + exists (Throw TypeError), w. repeat split; by try right.
Qed.

Lemma forEach_app {A} (l1 l2 : list A) (f : A -> Op unit) w :
  forEach (l1 ++ l2) f w = (forEach l1 f ;;; forEach l2 f) w.
Proof.
  revert w; induction l1 as [|x l1 IH]; intros w; [done|].
  simpl. unfold bind. destruct (f x w) as [[[]|e] w1]; [|done].
  rewrite IH. reflexivity.
Qed.

Lemma items_reverse this w :
  Store.items (RowArray.reverse this w).2 this = reverse (Store.items w this).
Proof.
  unfold Store.items, RowArray.reverse; simpl.
  rewrite list_lookup_alter_eq. by destruct (arrays w !! this).
Qed.

Lemma deleteAll_unfold this w :
  RowArray.deleteAll this w
  = forEach (reverse (Store.items w this)) RowArray.delete_each
            (RowArray.reverse this w).2.
Proof.
  unfold RowArray.deleteAll, bind, RowArray.elements.
  change (RowArray.reverse this w) with
    (Normal this, (RowArray.reverse this w).2) at 1.
  cbv beta iota. by rewrite items_reverse.
Qed.






(** Reversing an array changes no Row. *)
Lemma answers_reversed this w l method :
  Forall (fun r => answers w r method) l ->
  Forall (fun r => answers (RowArray.reverse this w).2 r method) (reverse l).
Proof.
  intros Hall. apply Forall_reverse.
  eapply Forall_impl; [exact Hall|]. intros r.
  by apply answers_same_fields.
Qed.


(** X1. Where a member does not answer to [delete()] (a field of that
    name hides the method), [deleteAll()] deletes the members that come
    after it, which answer, and throws a TypeError on reaching it: the
    receiver is left reversed and the members before it are left alone. *)
Theorem deleteAll_stops_at_hidden_delete this w earlier r later row :
  Store.items w this = earlier ++ r :: later ->
  Forall (fun r' => answers w r' "delete") later ->
  heap w !! r = Some row ->
  Property.read (Property.Instance (fields row)) "delete"
  <> Object (RowMember "delete") ->
  exists w1,
    forEach (reverse later) RowArray.delete_each (RowArray.reverse this w).2
    = (Normal tt, w1)
    /\ RowArray.deleteAll this w = (Throw TypeError, w1)
    /\ calls w1 = calls w ++ omap (deletion w) (reverse (remove_dups later))
    /\ Store.items w1 this = reverse (Store.items w this)
    /\ (forall r', r' ∉ later -> position w1 r' = position w r').
Proof.
  intros Hsplit Hlater Hrow Hread. rewrite deleteAll_unfold.
  set (w0 := (RowArray.reverse this w).2).
  destruct (forEach_delete (reverse later) w0)
    as (w1 & Hrun1 & Hcalls1 & _ & Harr1 & Hpos1 & Hfields1);
    [by apply answers_reversed|].
  exists w1. split; [done|].
  assert (Hitems : Store.items w1 this = reverse (Store.items w this)).
  { unfold Store.items. rewrite Harr1. simpl. rewrite list_lookup_alter_eq.
    by destruct (arrays w !! this). }
  assert (Hkept : forall r', r' ∉ later -> position w1 r' = position w r').
  { intros r' Hr'. rewrite Hpos1, decide_False; [done|].
    by rewrite elem_of_reverse. }
  split; [|split; [|done]].
  - rewrite Hsplit, reverse_app, reverse_cons, <- app_assoc.
    rewrite forEach_app. unfold bind at 1. rewrite Hrun1.
    simpl. unfold bind at 1.
    specialize (Hfields1 r). simpl in Hfields1. rewrite Hrow in Hfields1.
    destruct (heap w1 !! r) as [row1|] eqn:Hrow1; simplify_eq/=.
    unfold RowArray.delete_each.
    rewrite (call_hidden _ _ _ _ row1); [done|by left|done|].
    by rewrite Hfields1.
  - rewrite Hcalls1. unfold first_visits. by rewrite reverse_involutive.
Qed.

(** ** [ActiveTable.all] *)

Lemma rows_eq t w : Table.rows t w = (Normal (length (arrays w)), after_read t w).
Proof.
  unfold Table.rows, Store.new_array, after_read, data_rows. simpl.
  by rewrite length_imap.
Qed.

Lemma items_after_read t w :
  Store.items (after_read t w) (length (arrays w))
  = seq (length (heap w)) (length (data_rows w t)).
Proof. unfold Store.items. simpl. by rewrite list_lookup_middle. Qed.

Lemma heap_after_read_new t w k cells :
  data_rows w t !! k = Some cells ->
  heap (after_read t w) !! (length (heap w) + k) = Some (Table.lazyRow t k cells).
Proof.
  intros Hk. simpl. rewrite lookup_app_r by lia.
  replace (length (heap w) + k - length (heap w)) with k by lia.
  by rewrite list_lookup_imap, Hk.
Qed.

Lemma heap_after_read_old t w r :
  r < length (heap w) -> heap (after_read t w) !! r = heap w !! r.
Proof. intros Hr. simpl. by rewrite lookup_app_l. Qed.

Lemma assign_columns_lookup (g : Attribute -> JsValue) attrs :
  forall (m : gmap string JsValue) key,
    foldl (fun fs attr => <[name attr := g attr]> fs) m attrs !! key
    = match last_named key attrs with
      | Some attr => Some (g attr)
      | None => m !! key
      end.
Proof.
  unfold last_named.
  induction attrs as [|a attrs IH]; intros m key; [done|].
  simpl. rewrite IH, filter_cons.
  destruct (decide (name a = key)) as [Heq|Hne].
  - rewrite last_cons.
    destruct (last (filter _ attrs)); [done|].
    by rewrite Heq, lookup_insert_eq.
  - destruct (last (filter _ attrs)); [done|].
    by rewrite lookup_insert_ne.
Qed.

Lemma lazyRow_fields t k cells key :
  fields (Table.lazyRow t k cells) !! key
  = (fun attr => Store.cell cells (column attr - 1)) <$> last_named key (attributes t).
Proof.
  unfold Table.lazyRow; simpl.
  rewrite (assign_columns_lookup (fun attr => Store.cell cells (column attr - 1))).
  by destruct (last_named key (attributes t)).
Qed.

Lemma filter_none {A} (P : A -> Prop) `{!forall x, Decision (P x)} (l : list A) :
  (forall x, x ∈ l -> ~ P x) -> filter P l = [].
Proof.
  induction l as [|x l IH]; intros Hnone; [done|].
  rewrite filter_cons, decide_False by (apply Hnone, elem_of_cons; by left).
  apply IH. intros y Hy. apply Hnone, elem_of_cons. by right.
Qed.

(** When no two columns share a name, the column a name designates is the
    one that bears it. *)
Lemma last_named_unique attrs attr :
  NoDup (name <$> attrs) -> attr ∈ attrs -> last_named (name attr) attrs = Some attr.
Proof.
  unfold last_named. induction attrs as [|a attrs IH]; intros Hnd Hin.
  - by apply elem_of_nil in Hin.
  - rewrite fmap_cons in Hnd. apply NoDup_cons in Hnd as [Ha Hnd].
    rewrite filter_cons. apply elem_of_cons in Hin as [->|Hin].
    + rewrite decide_True by done. rewrite last_cons.
      rewrite filter_none; [done|].
      intros x Hx Heq. apply Ha. rewrite <- Heq. by apply list_elem_of_fmap_2.
    + destruct (decide (name a = name attr)) as [Heq|Hne].
      * exfalso. apply Ha. rewrite Heq. by apply list_elem_of_fmap_2.
      * by apply IH.
Qed.

(** X2. [all()] answers a new collection that holds one new Row per data
    row of the sheet, in the sheet's order; the Row of the k-th data row
    (counted from 1) holds the position [k + 1], belongs to the table, and
    its fields are the cells of that data row keyed by the column names
    other than [__proto__]: such a key holds, and the Row answers under
    it, the cell of the column of that name (the last one, should the
    header repeat a name), and nothing else is a key.  The read issues no
    call and changes no Row that existed. *)
Theorem all_wraps_every_data_row t w :
  exists w',
    Table.all t w = (Normal (length (arrays w)), w')
    /\ sheets w' = sheets w
    /\ calls w' = calls w
    /\ (forall r, r < length (heap w) -> heap w' !! r = heap w !! r)
    /\ length (Store.items w' (length (arrays w))) = length (data_rows w t)
    /\ forall k cells,
         data_rows w t !! (k - 1) = Some cells -> 1 <= k ->
         exists r row,
           Store.items w' (length (arrays w)) !! (k - 1) = Some r
           /\ heap w' !! r = Some row
           /\ heap w !! r = None
           /\ rowNumber row = Some (k + 1)
           /\ table row = t
           /\ (forall key,
                 key <> "__proto__" ->
                 fields row !! key
                 = (fun attr => Store.cell cells (column attr - 1))
                     <$> last_named key (attributes t))
           /\ (forall key attr,
                 key <> "__proto__" ->
                 last_named key (attributes t) = Some attr ->
                 Heap.prop w' r key = Store.cell cells (column attr - 1))
           /\ (NoDup (name <$> attributes t) ->
               forall attr, attr ∈ attributes t -> name attr <> "__proto__" ->
                 Heap.prop w' r (name attr) = Store.cell cells (column attr - 1)).
Proof.
  exists (after_read t w). unfold Table.all. rewrite rows_eq.
  split; [done|]. split; [done|]. split; [done|].
  split; [intros r; apply heap_after_read_old|].
  rewrite items_after_read. split; [by rewrite length_seq|].
  intros k cells Hk Hk1.
  assert (Hread : forall key attr,
            key <> "__proto__" -> last_named key (attributes t) = Some attr ->
            Heap.prop (after_read t w) (length (heap w) + (k - 1)) key
            = Store.cell cells (column attr - 1)).
  { intros key attr Hkey Hattr. unfold Heap.prop, Property.read.
    rewrite (heap_after_read_new _ _ _ _ Hk), decide_False by done.
    by rewrite lazyRow_fields, Hattr. }
  exists (length (heap w) + (k - 1)), (Table.lazyRow t (k - 1) cells).
  split.
  { apply lookup_seq. split; [done|]. by eapply lookup_lt_Some. }
  split; [by apply heap_after_read_new|].
  split; [apply lookup_ge_None; lia|].
  split; [simpl; f_equal; lia|].
  split; [done|].
  split; [intros key _; apply lazyRow_fields|].
  split; [done|].
  intros Hnd attr Hattr Hkey. apply Hread; [done|].
  by apply last_named_unique.
Qed.

(** A collection read from a table is in store order. *)
Lemma seq_in_store_order w lo hi :
  (forall r, lo <= r < hi -> position w r = Some (r - lo + 2)) ->
  forall n base, lo <= base -> base + n <= hi -> in_store_order w (seq base n).
Proof.
  intros Hpos. unfold in_store_order.
  induction n as [|n IH]; intros base Hlo Hhi; [constructor|].
  simpl. constructor.
  - apply IH; lia.
  - apply Forall_forall. intros r Hr. apply elem_of_seq in Hr.
    intros p q Hp Hq. rewrite Hpos in Hp by lia. rewrite Hpos in Hq by lia.
    simplify_eq. lia.
Qed.

Lemma read_in_store_order t w :
  in_store_order (after_read t w) (Store.items (after_read t w) (length (arrays w))).
Proof.
  rewrite items_after_read.
  apply (seq_in_store_order _ (length (heap w))
           (length (heap w) + length (data_rows w t))); [|lia..].
  intros r Hr.
  destruct (lookup_lt_is_Some_2 (data_rows w t) (r - length (heap w)))
    as [cells Hcells]; [lia|].
  unfold position.
  replace r with (length (heap w) + (r - length (heap w))) at 1 by lia.
  by rewrite (heap_after_read_new _ _ _ _ Hcells).
Qed.

(** Filtering a collection keeps it in store order. *)
Lemma filter_in_store_order w (f : nat -> bool) members :
  in_store_order w members -> in_store_order w (List.filter f members).
Proof.
  unfold in_store_order. induction 1 as [|r l Hsorted IH Hall]; [constructor|].
  simpl. destruct (f r); [|done]. constructor; [done|].
  rewrite Forall_forall in *. intros x Hx. apply Hall.
  apply list_elem_of_In in Hx. apply filter_In in Hx as [Hx _].
  by apply list_elem_of_In.
Qed.

(** ** The queries of a collection answer a new collection *)

(** A filter keeps the elements it retains in their order. *)
Lemma filter_sublist {A} (f : A -> bool) (l : list A) : sublist (List.filter f l) l.
Proof.
  induction l as [|x l IH]; [constructor|].
  simpl. destruct (f x); by constructor.
Qed.

Lemma items_with_new_array kept w this :
  this < length (arrays w) ->
  Store.items (with_new_array kept w) this = Store.items w this.
Proof. intros Hthis. unfold Store.items; simpl. by rewrite lookup_app_l. Qed.

Lemma items_dangling w this : length (arrays w) <= this -> Store.items w this = [].
Proof. intros Hthis. unfold Store.items. by rewrite lookup_ge_None_2. Qed.

(** A query never changes what its receiver holds, even when it is handed
    a number that designates no array. *)
Lemma items_after_query (f : nat -> bool) w this :
  Store.items (with_new_array (List.filter f (Store.items w this)) w) this
  = Store.items w this.
Proof.
  destruct (decide (this < length (arrays w))) as [Hlt|Hge].
  - by apply items_with_new_array.
  - rewrite (items_dangling w this) by lia. unfold Store.items; simpl.
    destruct (decide (this = length (arrays w))) as [->|Hne].
    + by rewrite list_lookup_middle.
    + rewrite lookup_ge_None_2; [done|]. rewrite length_app; simpl. lia.
Qed.

(** Store order is a matter of the heap alone, so a collection a table
    query answers is in store order too. *)
Lemma in_store_order_same_heap w w' members :
  heap w' = heap w -> in_store_order w members -> in_store_order w' members.
Proof.
  intros Hheap. unfold in_store_order.
  induction 1 as [|r l _ IH Hall]; constructor; [done|].
  eapply Forall_impl; [exact Hall|].
  intros r' Hr' p q. unfold position. rewrite Hheap. apply Hr'.
Qed.

Lemma items_new_array kept w :
  Store.items (with_new_array kept w) (length (arrays w)) = kept.
Proof. unfold Store.items; simpl. by rewrite list_lookup_middle. Qed.

Lemma table_where_in_store_order t obj w :
  exists a w',
    Table.where_ t obj w = (Normal a, w')
    /\ in_store_order w' (Store.items w' a).
Proof.
  unfold Table.where_, bind. rewrite rows_eq.
  set (w1 := after_read t w).
  set (kept := List.filter (fun r => RowArray.every w1 r obj RowArray.where_test)
                           (Store.items w1 (length (arrays w)))).
  exists (length (arrays w1)), (with_new_array kept w1).
  split; [done|]. rewrite items_new_array.
  apply (in_store_order_same_heap w1); [done|].
  apply filter_in_store_order, read_in_store_order.
Qed.

Section Receiver.
Context `{Js.Runtime}.

(** C10. [deleteAll()] reverses its receiver in place, before it iterates:
    whether it then completes or throws on a member that does not answer
    to [delete()], the collection afterwards holds the same Row references
    in the reverse of their order before the call, and no other array has
    changed; it completes whenever every member answers.  The queries
    [where], [after] and [before] answer a new array instead (the
    reference they return designated nothing before) and leave every
    existing array, the receiver included, the heap, the sheets and the
    calls as they were. *)
Theorem deleteAll_reverses_its_receiver this w :
  (exists c w',
     RowArray.deleteAll this w = (c, w')
     /\ (c = Normal tt \/ c = Throw TypeError)
     /\ (Forall (fun r => answers w r "delete") (Store.items w this) ->
         c = Normal tt)
     /\ arrays w' = alter reverse this (arrays w)
     /\ Store.items w' this = reverse (Store.items w this)
     /\ forall other, other <> this -> Store.items w' other = Store.items w other)
  /\ forall obj query,
       query ∈ [RowArray.where_; RowArray.after; RowArray.before] ->
       exists kept,
         query this obj w = (Normal (length (arrays w)), with_new_array kept w)
         /\ arrays w !! length (arrays w) = None
         /\ sublist kept (Store.items w this)
         /\ Store.items (with_new_array kept w) this = Store.items w this.
Proof.
  split.
  - rewrite deleteAll_unfold.
    destruct (forEach_delete_arrays (reverse (Store.items w this))
                                    (RowArray.reverse this w).2)
      as (c & w' & Hrun & Hc & Harr).
    exists c, w'. split; [done|]. split; [done|]. simpl in Harr. split.
    { intros Hanswer.
      destruct (forEach_delete (reverse (Store.items w this))
                               (RowArray.reverse this w).2)
        as (w'' & Hrun' & _); [by apply answers_reversed|].
      rewrite Hrun' in Hrun. by simplify_eq. }
    split; [done|]. split.
    + unfold Store.items. rewrite Harr, list_lookup_alter_eq.
      by destruct (arrays w !! this).
    + intros other Hne. unfold Store.items.
      by rewrite Harr, list_lookup_alter_ne.
  - intros obj query Hquery.
    rewrite !elem_of_cons in Hquery.
    destruct Hquery as [->|[->|[->|Hnil]]]; [| | |by apply elem_of_nil in Hnil].
    all: eexists; split; [reflexivity|];
      split; [by apply lookup_ge_None_2|]; split;
      [apply filter_sublist | apply items_after_query].
Qed.

End Receiver.

(** ** [ActiveTableRowArray.where] *)

Lemma every_true w r obj (test : JsAny -> JsAny -> bool) :
  RowArray.every w r obj test = true
  <-> forall key (value : JsValue),
        obj !! key = Some value -> test (Heap.prop w r key) value = true.
Proof.
  unfold RowArray.every. rewrite forallb_forall. split.
  - intros Hall key value Hkv.
    apply (Hall (key, value)), list_elem_of_In. by apply elem_of_map_to_list.
  - intros Hall [key value] Hin. simpl.
    apply Hall. by apply elem_of_map_to_list, list_elem_of_In.
Qed.

Lemma num_equal_true a b : Js.num_equal a b = true <-> same_number a b.
Proof.
  split.
  - destruct a, b; simpl; try done; intros Heq; constructor.
    by apply Qeq_bool_iff.
  - intros [x y Heq| |]; simpl; try done. by apply Qeq_bool_iff.
Qed.

Lemma where_test_true (rowValue : JsAny) (value : JsValue) :
  RowArray.where_test rowValue value = true <-> where_equal rowValue value.
Proof.
  unfold RowArray.where_test. split.
  - destruct rowValue as [rowCell|o]; simpl.
    + destruct rowCell, value; simpl; try done; intros Heq.
      * constructor.
      * constructor.
      * apply Bool.eqb_prop in Heq as ->. constructor.
      * constructor. by apply num_equal_true.
      * apply String.eqb_eq in Heq as ->. constructor.
      * constructor. apply num_equal_true in Heq.
        destruct Heq; constructor. by symmetry.
    + by destruct value.
  - intros [| |b|x y Heq|s|r1 t1 r2 t2 Heq]; simpl; try done.
    + by destruct b.
    + by apply num_equal_true.
    + by apply String.eqb_eq.
    + apply num_equal_true. destruct Heq; constructor. by symmetry.
Qed.

(** C7. [where(criteria)] answers a new collection that keeps exactly the
    rows for which every criterion's column holds a value equal to the
    expected one ([where_equal]: by value for primitives, by instant for
    two Dates); the rows kept are in the order they had in the receiver;
    empty criteria keep every row; and two distinct Date objects of the
    same instant are equal. *)
Theorem where_keeps_the_equal_rows this obj w :
  exists kept keep,
    RowArray.where_ this obj w
    = (Normal (length (arrays w)), with_new_array kept w)
    /\ kept = List.filter keep (Store.items w this)
    /\ (forall r, keep r = true
                  <-> forall key (value : JsValue),
                        obj !! key = Some value ->
                        where_equal (Heap.prop w r key) value)
    /\ sublist kept (Store.items w this)
    /\ (obj = ∅ -> kept = Store.items w this)
    /\ (forall r1 r2 t, where_equal (VDate r1 (Fin t)) (VDate r2 (Fin t))).
Proof.
  exists (List.filter (fun r => RowArray.every w r obj RowArray.where_test)
                      (Store.items w this)),
         (fun r => RowArray.every w r obj RowArray.where_test).
  split; [done|]. split; [done|]. split; [|split; [|split]].
  - intros r. rewrite every_true. split; intros Hall key value Hkv.
    + by apply where_test_true, Hall.
    + by apply where_test_true, Hall.
  - apply filter_sublist.
  - intros ->. apply forallb_filter_id, forallb_forall. intros r _.
    apply every_true. intros key value Hkv. by rewrite lookup_empty in Hkv.
  - intros r1 r2 t. constructor. constructor. reflexivity.
Qed.

(** ** [ActiveTableRowArray.after] and [ActiveTableRowArray.before] *)

Section Ordered.
Context `{Js.Runtime}.

Lemma strict_equals_VNull (v : JsAny) :
  Js.strict_equals v VNull = true <-> v = VNull.
Proof. destruct v as [[]|]; simpl; split; done. Qed.

Lemma strict_equals_empty (v : JsAny) :
  Js.strict_equals v (VString "") = true <-> v = VString "".
Proof.
  destruct v as [[]|]; simpl; split; try done.
  - intros Heq. apply String.eqb_eq in Heq. by subst.
  - intros [= ->]. done.
Qed.

Lemma before_test_true (rowValue value : JsAny) :
  RowArray.before_test rowValue value = true
  <-> rowValue <> VNull /\ rowValue <> VString ""
      /\ Js.less_than rowValue value = true.
Proof.
  unfold RowArray.before_test.
  rewrite !andb_true_iff, !negb_true_iff.
  rewrite <- !not_true_iff_false, strict_equals_VNull, strict_equals_empty.
  tauto.
Qed.

(** For a null value the comparison of [after] is that of the number 0. *)
Lemma greater_than_null (value : JsAny) :
  Js.greater_than VNull value = Js.greater_than (VNumber (Fin 0)) value.
Proof. unfold Js.greater_than, Js.IsLessThan. by destruct value as [[]|]. Qed.

(** So is it for the empty string, against anything but a string (no
    string is below the empty string). *)
Lemma greater_than_empty (value : JsValue) :
  Js.greater_than (VString "") value
  = match value with
    | VString _ => false
    | _ => Js.greater_than (VNumber (Fin 0)) value
    end.
Proof.
  unfold Js.greater_than, Js.IsLessThan.
  destruct value as [| | | |s|]; simpl; rewrite ?Js.StringToNumber_empty; try done.
  by destruct s.
Qed.

(** C1. [before(criteria)] keeps exactly the rows whose value at every
    criterion's column is neither null nor the empty string and is less
    than the expected value, whereas [after(criteria)] keeps exactly the
    rows whose value is greater than the expected value, with no such
    exclusion.  Hence a row that holds null or the empty string at a
    criterion's column is in no [before] result, whatever the threshold,
    while [after] treats it by the comparison alone, under which null and
    the empty string count as the number 0: such a row is kept by
    [after] for the threshold -1 and left out, by the comparison, for the
    threshold 28; and [before] leaves it out for the threshold 1 although
    it compares below 1. *)
Theorem before_excludes_null_and_empty_after_does_not this obj w :
  (exists kept keep,
     RowArray.before this obj w
     = (Normal (length (arrays w)), with_new_array kept w)
     /\ kept = List.filter keep (Store.items w this)
     /\ (forall r, keep r = true
                   <-> forall key (value : JsValue),
                         obj !! key = Some value ->
                         Heap.prop w r key <> VNull
                         /\ Heap.prop w r key <> VString ""
                         /\ Js.less_than (Heap.prop w r key) value = true)
     /\ (forall r key,
           is_Some (obj !! key) ->
           Heap.prop w r key = VNull \/ Heap.prop w r key = VString "" ->
           r ∉ kept))
  /\ (exists kept keep,
        RowArray.after this obj w
        = (Normal (length (arrays w)), with_new_array kept w)
        /\ kept = List.filter keep (Store.items w this)
        /\ (forall r, keep r = true
                      <-> forall key (value : JsValue),
                            obj !! key = Some value ->
                            Js.greater_than (Heap.prop w r key) value = true)
        /\ (forall r key (value : JsValue),
              obj = {[ key := value ]} ->
              Heap.prop w r key = VNull
              \/ (Heap.prop w r key = VString ""
                  /\ forall s, value <> VString s) ->
              (r ∈ kept <-> r ∈ Store.items w this
                            /\ Js.greater_than (VNumber (Fin 0)) value = true)))
  /\ (forall n : Z,
        let threshold := VNumber (Fin (inject_Z n)) in
        Js.greater_than VNull threshold = bool_decide (n < 0)%Z
        /\ Js.greater_than (VString "") threshold = bool_decide (n < 0)%Z
        /\ Js.less_than VNull threshold = bool_decide (0 < n)%Z
        /\ Js.less_than (VString "") threshold = bool_decide (0 < n)%Z
        /\ RowArray.before_test VNull threshold = false
        /\ RowArray.before_test (VString "") threshold = false).
Proof.
  split; [|split].
  - exists (List.filter (fun r => RowArray.every w r obj RowArray.before_test)
                        (Store.items w this)),
           (fun r => RowArray.every w r obj RowArray.before_test).
    split; [done|]. split; [done|]. split.
    + intros r. rewrite every_true. split; intros Hall key value Hkv.
      * by apply before_test_true, Hall.
      * by apply before_test_true, Hall.
    + intros r key [value Hkv] Hnull Hin.
      apply list_elem_of_In, filter_In in Hin as [_ Hkeep].
      rewrite every_true in Hkeep. specialize (Hkeep key value Hkv).
      apply before_test_true in Hkeep as (Hn & He & _).
      by destruct Hnull.
  - exists (List.filter (fun r => RowArray.every w r obj Js.greater_than)
                        (Store.items w this)),
           (fun r => RowArray.every w r obj Js.greater_than).
    split; [done|]. split; [done|]. split.
    + intros r. by rewrite every_true.
    + intros r key value -> Hvalue.
      rewrite list_elem_of_In, filter_In, <- list_elem_of_In, every_true.
      assert (Hcmp : Js.greater_than (Heap.prop w r key) value
                     = Js.greater_than (VNumber (Fin 0)) value).
      { destruct Hvalue as [->|[-> Hs]]; [apply greater_than_null|].
        rewrite greater_than_empty. destruct value; try done.
        by destruct (Hs s). }
      split; intros [Hin Hkeep]; (split; [done|]).
      * rewrite <- Hcmp. apply Hkeep. by apply lookup_singleton_eq.
      * intros k v Hkv. apply lookup_singleton_Some in Hkv as [<- <-].
        by rewrite Hcmp.
  - intros n threshold. subst threshold.
    unfold RowArray.before_test, Js.less_than, Js.greater_than, Js.IsLessThan.
    simpl. rewrite Js.StringToNumber_empty. simpl.
    unfold Qle_bool, inject_Z. simpl.
    rewrite !Z.mul_1_r.
    repeat split; try done.
    all: case_bool_decide; [apply negb_true_iff, Z.leb_gt | apply negb_false_iff, Z.leb_le]; lia.
Qed.

End Ordered.

(** ** [ActiveTable.create] *)

(** What a plain object inherits is a function or a prototype object,
    never a cell value. *)
Lemma inherited_plain key v :
  Property.inherited Property.ObjectProto key = Some v -> exists o, v = Object o.
Proof.
  unfold Property.inherited, Property.of_Object.
  repeat case_decide; intros [= <-]; eauto.
Qed.

Lemma inherited_plain_name key :
  plain_name key -> Property.inherited Property.ObjectProto key = None.
Proof.
  intros [Hproto Hmember]. unfold Property.inherited, Property.of_Object.
  by rewrite !decide_False.
Qed.

Lemma values_written attrs obj :
  Operable.values attrs (Property.Plain obj) = map (written obj) attrs.
Proof.
  unfold Operable.values. apply map_ext. intros attr.
  unfold written, Property.read.
  destruct (obj !! name attr) as [[]|]; try done.
  destruct (Property.inherited Property.ObjectProto (name attr)) as [v|] eqn:Hv;
    [|done].
  by apply inherited_plain in Hv as [o ->].
Qed.

Lemma written_defined obj attr :
  written obj attr <> VUndefined /\ written obj attr <> VNull.
Proof.
  unfold written. destruct (obj !! name attr) as [[]|]; try done.
  destruct (Property.inherited Property.ObjectProto (name attr)) as [v|] eqn:Hv;
    [|done].
  by apply inherited_plain in Hv as [o ->].
Qed.

(** Under a name that names no inherited member, the value handed over is
    the property or the empty string. *)
Lemma written_plain_name obj attr :
  plain_name (name attr) ->
  written obj attr = Cell (field_or_empty obj attr).
Proof.
  intros Hplain. unfold written, field_or_empty.
  rewrite (inherited_plain_name _ Hplain).
  by destruct (obj !! name attr) as [[]|].
Qed.

Lemma cells_of_cells (row : list JsValue) : Store.cells (Cell <$> row) = Some row.
Proof.
  unfold Store.cells. induction row as [|v row IH]; [done|].
  cbn. cbn in IH. by rewrite IH.
Qed.

(** X3. [create(fields)] issues exactly one call, an [appendRow], whose values
    are, column by column, what the object answers under the column's
    name, the empty string standing in for undefined and null; no value
    appended is undefined or null; keys of [fields] that name no column
    play no part.  When no column bears the name of a member that objects
    inherit, every value is the field of the column's name or the empty
    string, and the sheet gains that row at its end. *)
Theorem create_issues_one_appendRow t obj w :
  exists values w',
    Table.create t obj w = (Normal tt, w')
    /\ calls w' = calls w ++ [AppendRow (sheet t) values]
    /\ heap w' = heap w
    /\ arrays w' = arrays w
    /\ values = map (written obj) (attributes t)
    /\ (forall v : JsAny, v ∈ values -> v <> VUndefined /\ v <> VNull)
    /\ (Forall (fun attr => plain_name (name attr)) (attributes t) ->
        values = Cell <$> map (field_or_empty obj) (attributes t)
        /\ sheets w'
           = alter (fun grid => grid ++ [map (field_or_empty obj) (attributes t)])
                   (sheet t) (sheets w))
    /\ (forall obj',
          (forall attr, attr ∈ attributes t -> obj' !! name attr = obj !! name attr) ->
          Table.create t obj' w = Table.create t obj w).
Proof.
  eexists (map (written obj) (attributes t)), _.
  unfold Table.create, Operable.create, Store.issue. rewrite values_written.
  split; [reflexivity|]. simpl.
  do 4 (split; [done|]). split; [|split].
  - intros v Hv. apply list_elem_of_In, in_map_iff in Hv as (attr & <- & _).
    apply written_defined.
  - intros Hplain.
    assert (Hrow : map (written obj) (attributes t)
                   = Cell <$> map (field_or_empty obj) (attributes t)).
    { rewrite <- list_fmap_compose. apply map_ext_in.
      intros attr Hattr. apply written_plain_name.
      rewrite Forall_forall in Hplain. by apply Hplain, list_elem_of_In. }
    split; [done|]. by rewrite Hrow, cells_of_cells.
  - intros obj' Hsame. rewrite values_written.
    assert (Hmap : map (written obj') (attributes t) = map (written obj) (attributes t)).
    { apply map_ext_in. intros attr Hattr. unfold written.
      by rewrite Hsame by (by apply list_elem_of_In). }
    by rewrite Hmap.
Qed.

(** The example of the specification: against the columns id, name and
    status, [create({id: 'x', name: 'y'})] appends [x, y, ''], and so does
    a call that carries a key naming no column. *)
Example create_defaults_missing_status :
  calls (Table.create Example.table
           {[ "id" := VString "x"; "name" := VString "y" ]}
           (Example.world "TestSheet" Example.users)).2
  = [AppendRow "TestSheet"
       [Cell (VString "x"); Cell (VString "y"); Cell (VString "")]]
  /\ calls (Table.create Example.table
              {[ "id" := VString "x"; "name" := VString "y";
                 "nickname" := VString "z"; "status" := VNull ]}
              (Example.world "TestSheet" Example.users)).2
     = [AppendRow "TestSheet"
          [Cell (VString "x"); Cell (VString "y"); Cell (VString "")]].
Proof. split; vm_compute; reflexivity. Qed.

(** C6.  Where a column bears the name of a member that every object
    inherits, [create] does not default the column to the empty value.  On
    the sheet whose columns are id, constructor and toString,
    [create({id: 'x'})] completes and appends one row; for the two columns
    missing from the object it hands over the functions the object
    inherits under those names, [Object] and [Object.prototype.toString],
    not the empty string. *)
Lemma create_appends_inherited_members :
  let grid := [ [VString "id"; VString "constructor"; VString "toString"] ] in
  let w := Example.world "Things" grid in
  let t := {| sheet := "Things";
              attributes := [ {| column := 1; name := "id" |};
                              {| column := 2; name := "constructor" |};
                              {| column := 3; name := "toString" |} ] |} in
  let fields : gmap string JsValue := {[ "id" := VString "x" ]} in
  Table.bySheetName (H := Example.runtime) "Things" true w = (Normal t, w)
  /\ fields !! "constructor" = None
  /\ fields !! "toString" = None
  /\ (Table.create t fields w).1 = Normal tt
  /\ calls (Table.create t fields w).2
     = [AppendRow "Things"
          [Cell (VString "x"); Object (ObjectMember "constructor");
           Object (ObjectMember "toString")]]
  /\ calls (Table.create t fields w).2
     <> [AppendRow "Things"
           [Cell (VString "x"); Cell (VString ""); Cell (VString "")]].
Proof. vm_compute. repeat split; try reflexivity. discriminate. Qed.

(** ** Construction and the uniqueness of the first column *)

Lemma repeats_after_cons seen v l :
  repeats_after seen (v :: l)
  <-> existsb (Js.same_value_zero v) seen = true \/ repeats_after (seen ++ [v]) l.
Proof.
  unfold repeats_after. split.
  - intros (l1 & b & l2 & Hl & Hex). destruct l1 as [|x l1]; simplify_eq/=.
    + left. by rewrite app_nil_r in Hex.
    + right. exists l1, b, l2. split; [done|]. by rewrite <- app_assoc.
  - intros [Hex|(l1 & b & l2 & -> & Hex)].
    + exists [], v, l. split; [done|]. by rewrite app_nil_r.
    + exists (v :: l1), b, l2. split; [done|]. by rewrite <- app_assoc in Hex.
Qed.

Lemma Set_size seen l :
  length (foldl Table.Set_add seen l) <= length seen + length l
  /\ (length (foldl Table.Set_add seen l) < length seen + length l
      <-> repeats_after seen l).
Proof.
  revert seen. induction l as [|v l IH]; intros seen; simpl.
  - split; [lia|]. split; [lia|].
    intros (l1 & b & l2 & Hl & _). by destruct l1.
  - rewrite repeats_after_cons. unfold Table.Set_add at 2 4.
    destruct (existsb (Js.same_value_zero v) seen) eqn:Hex.
    + destruct (IH seen) as [Hle _]. split; [lia|]. split; [by left|lia].
    + destruct (IH (seen ++ [v])) as [Hle Hlt].
      rewrite length_app in Hle, Hlt; simpl in Hle, Hlt.
      split; [lia|]. rewrite <- Hlt. split; [intros ?; right; lia|].
      intros [?|?]; [done|lia].
Qed.

(** The size of the Set is the length of the list exactly when no value
    repeats an earlier one. *)
Lemma new_Set_size l :
  length (Table.new_Set l) <= length l
  /\ (length (Table.new_Set l) < length l <-> has_duplicate l).
Proof. apply (Set_size [] l). Qed.

Section Construction.
Context `{Js.Runtime}.

Lemma bySheetName_unchecked sheetName headers rows w :
  sheets w !! sheetName = Some (headers :: rows) ->
  Table.bySheetName sheetName false w = (Normal (opened sheetName headers), w).
Proof.
  intros Hgrid. unfold Table.bySheetName, Table.constructor, Store.getValues.
  by rewrite Hgrid.
Qed.

Lemma bySheetName_checked sheetName headers rows w :
  sheets w !! sheetName = Some (headers :: rows) ->
  Table.bySheetName sheetName true w
  = if decide (length (Table.new_Set (map (fun row => Store.cell row 0) rows))
               = length rows)
    then (Normal (opened sheetName headers), w)
    else (Throw (Error (Table.duplicate_values sheetName)), w).
Proof.
  intros Hgrid. unfold Table.bySheetName, Table.constructor, Store.getValues.
  rewrite Hgrid. simpl.
  case_decide as Hsize.
  - by rewrite Hsize, Nat.eqb_refl.
  - apply Nat.eqb_neq in Hsize. by rewrite Hsize.
Qed.

(** The column names of a table are the texts of the header cells, the
    column of each its 1-based place in the header row. *)
Lemma opened_attributes sheetName (names : list string) :
  attributes (opened sheetName (VString <$> names))
  = imap (fun index name => {| column := index + 1; name := name |}) names.
Proof.
  unfold opened; simpl. rewrite imap_fmap. apply imap_ext.
  intros i n _. simpl. by rewrite Js.ToString_string.
Qed.

Lemma opened_names sheetName headers :
  name <$> attributes (opened sheetName headers) = Js.ToString <$> headers.
Proof.
  unfold opened; simpl. rewrite fmap_imap.
  apply list_eq; intros i. rewrite list_lookup_imap, list_lookup_fmap.
  by destruct (headers !! i).
Qed.

(** With header cells of distinct texts, a Row read through the table
    holds, under the text of each header cell, the cell below it. *)
Lemma read_of_opened_table sheetName headers k cells j h :
  NoDup (Js.ToString <$> headers) -> headers !! j = Some h ->
  Store.get (fields (Table.lazyRow (opened sheetName headers) k cells))
            (Js.ToString h)
  = Store.cell cells j.
Proof.
  intros Hnd Hj. unfold Store.get.
  rewrite lazyRow_fields.
  pose proof (last_named_unique (attributes (opened sheetName headers))
                {| column := j + 1; name := Js.ToString h |}) as Hlast.
  cbn [name] in Hlast. rewrite Hlast.
  - simpl. f_equal. lia.
  - by rewrite opened_names.
  - unfold opened; simpl. apply elem_of_lookup_imap. by exists j, h.
Qed.

(** C4. Construction with [checkUnique] enabled throws the
    duplicate-values error, whose message names the sheet, exactly when the
    first column of the data rows (the header row excluded) holds fewer
    distinct values than there are data rows, that is, exactly when some
    data row's first cell is the same value as that of an earlier data row
    (values are told apart as a Set does, by SameValueZero).  With
    [checkUnique] disabled, construction on the same grid (any with a header
    row) succeeds, and [all()] then answers one Row per data row,
    duplicates included. *)
Theorem construction_checks_first_column sheetName w :
  let rows := drop 1 (Store.getValues w sheetName) in
  let keys := map (fun row => Store.cell row 0) rows in
  (Table.bySheetName sheetName true w
     = (Throw (Error (Table.duplicate_values sheetName)), w)
   <-> length (Table.new_Set keys) < length rows)
  /\ (length (Table.new_Set keys) < length rows <-> has_duplicate keys)
  /\ Table.duplicate_values sheetName
     = "Duplicate values found in the first column of sheet "
         +:+ dquote +:+ sheetName +:+ dquote
  /\ (forall headers,
        sheets w !! sheetName = Some (headers :: rows) ->
        exists t w',
          Table.bySheetName sheetName false w = (Normal t, w)
          /\ (~ has_duplicate keys ->
              Table.bySheetName sheetName true w = (Normal t, w))
          /\ Table.all t w = (Normal (length (arrays w)), w')
          /\ length (Store.items w' (length (arrays w))) = length rows
          /\ forall k cells,
               rows !! k = Some cells ->
               exists r,
                 Store.items w' (length (arrays w)) !! k = Some r
                 /\ heap w' !! r = Some (Table.lazyRow t k cells)).
Proof.
  intros rows keys.
  assert (Hlen : length keys = length rows) by apply length_map.
  destruct (new_Set_size keys) as [Hle Hdup]. rewrite Hlen in Hle, Hdup.
  split; [|split; [done|split; [done|]]].
  - subst keys rows. unfold Store.getValues in *.
    destruct (sheets w !! sheetName) as [[|headers rows]|] eqn:Hgrid; simpl in *.
    + unfold Table.bySheetName, Table.constructor, Store.getValues.
      rewrite Hgrid. simpl. split; [done|lia].
    + rewrite drop_0 in *.
      rewrite (bySheetName_checked _ _ _ _ Hgrid).
      case_decide; split; try done; lia.
    + unfold Table.bySheetName. rewrite Hgrid. split; [|lia].
      unfold throw, Table.sheet_not_found, Table.duplicate_values. simpl.
      intros [=].
  - intros headers Hgrid.
    exists (opened sheetName headers), (after_read (opened sheetName headers) w).
    assert (Hdata : data_rows w (opened sheetName headers) = rows) by done.
    pose proof (bySheetName_checked _ _ _ _ Hgrid) as Hchecked.
    fold keys in Hchecked.
    split; [by apply (bySheetName_unchecked _ _ rows)|]. split; [|split; [|split]].
    + intros Hnodup. rewrite Hchecked, decide_True; [done|].
      destruct (decide (length (Table.new_Set keys) = length rows)); [done|].
      exfalso. apply Hnodup, Hdup. lia.
    + unfold Table.all. by rewrite rows_eq.
    + by rewrite items_after_read, length_seq, Hdata.
    + intros k cells Hk. exists (length (heap w) + k).
      rewrite items_after_read, Hdata. split.
      * apply lookup_seq. split; [done|]. by eapply lookup_lt_Some.
      * apply heap_after_read_new. by rewrite Hdata.
Qed.

End Construction.

(** ** [ActiveTable.find] *)








(** ** The theorems at work on the sheet of the test suite *)


(** C5.  Where a later column repeats the first column's name, [find]
    does not match on the first column's value.  On the sheet with header
    [id, id] and the one data row [a, b], which the constructor accepts
    with its uniqueness check on, the first column's value is [a]; yet
    [find('a')] throws the not-found error, and [find('b')], which is no
    first-column value of the sheet, answers the row. *)
Lemma find_reads_last_column_of_the_name :
  let grid := [ [VString "id"; VString "id"]; [VString "a"; VString "b"] ] in
  let w := Example.world "Keys" grid in
  let t := {| sheet := "Keys";
              attributes := [ {| column := 1; name := "id" |};
                              {| column := 2; name := "id" |} ] |} in
  Table.bySheetName (H := Example.runtime) "Keys" true w = (Normal t, w)
  /\ data_rows w t = [ [VString "a"; VString "b"] ]
  /\ Store.cell [VString "a"; VString "b"] 0 = VString "a"
  /\ (Table.find t "a" w).1 = Throw (Error (Table.row_not_found "a"))
  /\ (Table.find t "b" w).1 = Normal 0.
Proof. vm_compute. repeat split; reflexivity. Qed.

(** C9.  Where a column is named [__proto__], the Row that [all()]
    answers does not hold the cell of that column.  On the sheet with
    header [id, __proto__] and the one data row [a, x], which the
    constructor accepts, the Row read holds [a] under id; under
    [__proto__] it holds no field: the assignment reaches the setter the
    Row inherits, which ignores the text, and the Row answers its
    prototype there, not the cell [x]. *)
Lemma all_holds_no_cell_under_proto :
  let grid := [ [VString "id"; VString "__proto__"]; [VString "a"; VString "x"] ] in
  let w := Example.world "Odd" grid in
  let t := {| sheet := "Odd";
              attributes := [ {| column := 1; name := "id" |};
                              {| column := 2; name := "__proto__" |} ] |} in
  Table.bySheetName (H := Example.runtime) "Odd" true w = (Normal t, w)
  /\ data_rows w t = [ [VString "a"; VString "x"] ]
  /\ (Table.all t w).1 = Normal 0
  /\ Store.items (Table.all t w).2 0 = [0]
  /\ Heap.prop (Table.all t w).2 0 "id" = VString "a"
  /\ Store.cell [VString "a"; VString "x"] 1 = VString "x"
  /\ Heap.prop (Table.all t w).2 0 "__proto__" = Object RowPrototype
  /\ Heap.prop (Table.all t w).2 0 "__proto__" <> VString "x".
Proof. vm_compute. repeat split; try reflexivity. discriminate. Qed.

Lemma delete_issues_one_call_then_none_witness :
  exists w1,
    Row.delete 1 Example.loaded = (Normal tt, w1)
    /\ calls w1 = [DeleteRow "TestSheet" 3]
    /\ Row.isPersisted 1 w1 = (Normal false, w1)
    /\ Row.delete 1 w1 = (Normal tt, w1).
Proof.
  destruct (delete_issues_one_call_then_none 1 Example.loaded
              (Table.lazyRow Example.table 1
                 [VString "user2"; VString "Bob"; VString "inactive"]) 3)
    as (w1 & Hrun & Hcalls & _ & _ & Hpersisted & Hagain).
  - vm_compute. reflexivity.
  - reflexivity.
  - exists w1. repeat split; done.
Defined.

(** The two Rows read from the sheet of the test suite answer to
    [delete()] and to [update()]: the sheet has no column of those names. *)
Lemma loaded_rows_answer method :
  method = "delete" \/ method = "update" ->
  Forall (fun r => answers Example.loaded r method) (Store.items Example.loaded 0).
Proof.
  intros Hmethod.
  assert (Hitems : Store.items Example.loaded 0 = [0; 1])
    by (vm_compute; reflexivity).
  rewrite Hitems.
  constructor; [|constructor; [|constructor]].
  all: apply answers_iff; [done|]; intros row Hrow;
    vm_compute in Hrow; injection Hrow as <-;
    destruct Hmethod as [-> | ->]; vm_compute; by split.
Qed.



(** The collection of the test suite after the Row of position 2 has been
    given a field named delete: [deleteAll()] deletes the Row of position
    3, throws on reaching the other one and leaves it its position. *)
Lemma deleteAll_stops_at_hidden_delete_witness :
  let w := (Row.update 0 {[ "delete" := VString "soon" ]} Example.loaded).2 in
  exists w1,
    RowArray.deleteAll 0 w = (Throw TypeError, w1)
    /\ calls w1 = calls w ++ [DeleteRow "TestSheet" 3]
    /\ position w1 0 = Some 2.
Proof.
  intros w.
  assert (Hitems : Store.items w 0 = [] ++ 0 :: [1]) by (vm_compute; reflexivity).
  assert (Hlater : Forall (fun r => answers w r "delete") [1]).
  { constructor; [|constructor].
    apply answers_iff; [by left|]. intros row Hrow.
    vm_compute in Hrow. injection Hrow as <-. vm_compute. by split. }
  assert (Hrow : heap w !! 0
                 = Some (merged {[ "delete" := VString "soon" ]}
                           (Table.lazyRow Example.table 0
                              [VString "user1"; VString "Alice"; VString "active"])))
    by (vm_compute; reflexivity).
  assert (Hread :
    Property.read
      (Property.Instance
         (fields (merged {[ "delete" := VString "soon" ]}
                    (Table.lazyRow Example.table 0
                       [VString "user1"; VString "Alice"; VString "active"]))))
      "delete"
    <> Object (RowMember "delete")) by (vm_compute; discriminate).
  destruct (deleteAll_stops_at_hidden_delete 0 w [] 0 [1] _ Hitems Hlater Hrow Hread)
    as (w1 & _ & Hrun & Hcalls & _ & Hkept).
  exists w1. split; [exact Hrun|]. split.
  - rewrite Hcalls. f_equal.
  - rewrite Hkept.
    + vm_compute. reflexivity.
    + intros Hin. apply list_elem_of_singleton in Hin. discriminate.
Defined.

(** A sheet with a column named delete.  Every Row read from it holds a
    field of that name, which hides the method: [deleteAll()] reverses the
    collection, throws a TypeError at its first call of [row.delete()] and
    issues no call.  On a sheet with a column named update, [updateAll]
    throws likewise. *)
Example deleteAll_throws_on_a_column_named_delete :
  let t := {| sheet := "Flags";
              attributes := [ {| column := 1; name := "id" |};
                              {| column := 2; name := "delete" |} ] |} in
  let w := (Table.all t
              (Example.world "Flags"
                 [ [VString "id"; VString "delete"];
                   [VString "a"; VString "no"];
                   [VString "b"; VString "yes"] ])).2 in
  Heap.prop w 1 "delete" = VString "yes"
  /\ RowArray.deleteAll 0 w = (Throw TypeError, (RowArray.reverse 0 w).2)
  /\ calls (RowArray.deleteAll 0 w).2 = []
  /\ Store.items (RowArray.deleteAll 0 w).2 0 = [1; 0].
Proof. vm_compute. repeat split; reflexivity. Qed.

Example updateAll_throws_on_a_column_named_update :
  let t := {| sheet := "Flags";
              attributes := [ {| column := 1; name := "id" |};
                              {| column := 2; name := "update" |} ] |} in
  let w := (Table.all t
              (Example.world "Flags"
                 [ [VString "id"; VString "update"];
                   [VString "a"; VString "no"] ])).2 in
  RowArray.updateAll 0 {[ "id" := VString "z" ]} w = (Throw TypeError, w).
Proof. vm_compute. reflexivity. Qed.

Lemma construction_checks_first_column_witness :
  let grid := [ [VString "id"; VString "name"; VString "status"];
                [VString "user1"; VString "Alice"; VString "active"];
                [VString "user1"; VString "Bob"; VString "inactive"] ] in
  let w := Example.world "TestSheet" grid in
  Table.bySheetName (H := Example.runtime) "TestSheet" true w
  = (Throw (Error (Table.duplicate_values "TestSheet")), w)
  /\ exists t w',
       Table.bySheetName (H := Example.runtime) "TestSheet" false w = (Normal t, w)
       /\ Table.all t w = (Normal 0, w')
       /\ length (Store.items w' 0) = 2.
Proof.
  intros grid w.
  destruct (construction_checks_first_column (H := Example.runtime) "TestSheet" w)
    as (Hthrows & _ & _ & Hunchecked).
  split.
  - apply Hthrows. vm_compute. lia.
  - destruct (Hunchecked [VString "id"; VString "name"; VString "status"] eq_refl)
      as (t & w' & Hopen & _ & Hall & Hlen & _).
    exists t, w'. repeat split; done.
Defined.

(** ** The queries on small sheets *)

(** The rows of ages 25, 30 and 35: [after({age: 28})] answers those of 30
    and 35, [before({age: 32})] those of 25 and 30, in their order. *)
Example after_28_and_before_32 :
  Example.answer Example.ages
    (RowArray.after (H := Example.runtime) 0 {[ "age" := Example.num 28 ]})
  = [1; 2]
  /\ Example.answer Example.ages
       (RowArray.before (H := Example.runtime) 0 {[ "age" := Example.num 32 ]})
     = [0; 1].
Proof. split; vm_compute; reflexivity. Qed.

(** The rows holding null and the empty string pass [after] where the
    number 0 would, and pass no [before]. *)
Example after_keeps_null_and_empty_above_minus_1 :
  Example.answer Example.ages
    (RowArray.after (H := Example.runtime) 0 {[ "age" := Example.num (-1) ]})
  = [0; 1; 2; 3; 4]
  /\ Example.answer Example.ages
       (RowArray.before (H := Example.runtime) 0 {[ "age" := Example.num 100 ]})
     = [0; 1; 2].
Proof. split; vm_compute; reflexivity. Qed.

(** Two Date objects of the same instant are equal for [where]; a Date of
    another instant is not. *)
Example where_compares_dates_by_instant :
  let t := {| sheet := "Log";
              attributes := [ {| column := 1; name := "id" |};
                              {| column := 2; name := "date" |} ] |} in
  let w := (Table.all t
              (Example.world "Log"
                 [ [VString "id"; VString "date"];
                   [VString "e1"; VDate 1 (Fin 1672531200000)];
                   [VString "e2"; VDate 2 (Fin 1672617600000)] ])).2 in
  Example.answer w (RowArray.where_ 0 {[ "date" := VDate 7 (Fin 1672531200000) ]})
  = [0].
Proof. vm_compute. reflexivity. Qed.

(** A criterion on a key that names no column reads what the Row inherits
    under it: the rows of the test suite hold no field named height, so
    [where({height: undefined})] keeps them all; under toString they
    inherit a function, which is not undefined, and [where({toString:
    undefined})] keeps none. *)
Example where_reads_inherited_members :
  Example.answer Example.loaded (RowArray.where_ 0 {[ "height" := VUndefined ]})
  = [0; 1]
  /\ Example.answer Example.loaded (RowArray.where_ 0 {[ "toString" := VUndefined ]})
     = []
  /\ Heap.prop Example.loaded 0 "toString" = Object (ObjectMember "toString")
  /\ Heap.prop Example.loaded 0 "save" = Object (RowMember "save").
Proof. vm_compute. repeat split; reflexivity. Qed.

(** On a sheet whose two data rows are both keyed dup, opened without the
    uniqueness check, [find('dup')] throws the multiple-rows error and
    [find('ghost')] the not-found error. *)
Example find_on_duplicate_keys :
  let w := Example.world "TestSheet"
             [ [VString "id"; VString "name"];
               [VString "dup"; VString "Alice"];
               [VString "dup"; VString "Bob"] ] in
  let t := {| sheet := "TestSheet";
              attributes := [ {| column := 1; name := "id" |};
                              {| column := 2; name := "name" |} ] |} in
  Table.bySheetName (H := Example.runtime) "TestSheet" false w = (Normal t, w)
  /\ (Table.find t "dup" w).1 = Throw (Error (Table.multiple_rows "dup"))
  /\ (Table.find t "ghost" w).1 = Throw (Error (Table.row_not_found "ghost")).
Proof. vm_compute. repeat split; reflexivity. Qed.

(* ===================================================================== *)
(** * Further properties                                                 *)
(* ===================================================================== *)

(** ** Reads never write *)

Lemma find_world t id w : (Table.find t id w).2 = after_read t w.
Proof.
  unfold Table.find, bind. rewrite rows_eq.
  unfold RowArray.elements. rewrite items_after_read.
  destruct (attributes t) as [|a0 rest];
    destruct (seq (length (heap w)) (length (data_rows w t))) as [|r l]; simpl;
    repeat (case_decide || case_match); done.
Qed.

Section Reads.
Context `{Js.Runtime}.

(** X5. Every read of a table ([all], [where], [after], [before], [find],
    whether it answers or throws) reads the sheet again and allocates one
    new Row per data row: it issues no call, leaves the sheets, the
    existing Rows and the existing arrays as they were. *)
Theorem reads_never_write t obj id w :
  Forall (fun w' =>
            sheets w' = sheets w
            /\ calls w' = calls w
            /\ heap w' = heap w ++ imap (Table.lazyRow t) (data_rows w t)
            /\ (forall r, r < length (heap w) -> heap w' !! r = heap w !! r)
            /\ (forall a, a < length (arrays w) -> arrays w' !! a = arrays w !! a))
         [ (Table.all t w).2; (Table.where_ t obj w).2; (Table.after t obj w).2;
           (Table.before t obj w).2; (Table.find t id w).2 ].
Proof.
  apply Forall_forall. intros w' Hw'.
  assert (Hread : exists extra, w' = Store.set_arrays (arrays (after_read t w) ++ extra)
                                      (after_read t w)).
  { rewrite !elem_of_cons in Hw'.
    destruct Hw' as [->|[->|[->|[->|[->|Hnil]]]]]; [| | | | |by apply elem_of_nil in Hnil].
    - exists []. unfold Table.all. rewrite rows_eq. simpl.
      by rewrite app_nil_r.
    - eexists [_]. unfold Table.where_, bind. rewrite rows_eq. reflexivity.
    - eexists [_]. unfold Table.after, bind. rewrite rows_eq. reflexivity.
    - eexists [_]. unfold Table.before, bind. rewrite rows_eq. reflexivity.
    - exists []. rewrite find_world. simpl. by rewrite app_nil_r. }
  destruct Hread as [extra ->]. simpl.
  split; [done|]. split; [done|]. split; [done|]. split.
  - intros r Hr. by rewrite lookup_app_l.
  - intros a Ha. rewrite <- app_assoc. by rewrite lookup_app_l.
Qed.

End Reads.

(** ** The outcomes of construction *)

Section Outcomes.
Context `{Js.Runtime}.

Lemma opened_numbered sheetName headers : numbered (opened sheetName headers).
Proof.
  intros j attr Hj. unfold opened in Hj; simpl in Hj.
  apply list_lookup_imap_Some in Hj as (h & _ & ->). done.
Qed.

(** X6. [bySheetName] only reads: whatever it answers, the world is as
    before.  It throws the sheet-not-found error exactly when no sheet has
    that name, and a TypeError exactly when the sheet's grid has no row at
    all; it answers a table exactly when the sheet has a header row and,
    if [checkUnique] is set, no first cell of a data row repeats an earlier
    one.  The table answered depends on the header row alone: one column
    descriptor per header cell, numbered from 1, left to right. *)
Theorem bySheetName_outcomes sheetName checkUnique w :
  (Table.bySheetName sheetName checkUnique w).2 = w
  /\ ((Table.bySheetName sheetName checkUnique w).1
        = Throw (Error (Table.sheet_not_found sheetName))
      <-> sheets w !! sheetName = None)
  /\ ((Table.bySheetName sheetName checkUnique w).1 = Throw TypeError
      <-> sheets w !! sheetName = Some [])
  /\ (forall t,
        (Table.bySheetName sheetName checkUnique w).1 = Normal t
        <-> exists headers rows,
              sheets w !! sheetName = Some (headers :: rows)
              /\ (checkUnique = true
                  -> ~ has_duplicate (map (fun row => Store.cell row 0) rows))
              /\ t = opened sheetName headers)
  /\ (forall headers,
        numbered (opened sheetName headers)
        /\ length (attributes (opened sheetName headers)) = length headers
        /\ name <$> attributes (opened sheetName headers) = Js.ToString <$> headers).
Proof.
  assert (Hmsg : Table.duplicate_values sheetName <> Table.sheet_not_found sheetName).
  { unfold Table.sheet_not_found, Table.duplicate_values. simpl. intros [=]. }
  assert (Hlast : forall headers,
             numbered (opened sheetName headers)
             /\ length (attributes (opened sheetName headers)) = length headers
             /\ name <$> attributes (opened sheetName headers) = Js.ToString <$> headers).
  { intros headers. split; [apply opened_numbered|]. split; [apply length_imap|].
    apply opened_names. }
  destruct (sheets w !! sheetName) as [[|headers rows]|] eqn:Hgrid.
  - unfold Table.bySheetName, Table.constructor, Store.getValues. rewrite Hgrid. simpl.
    split; [done|]. split; [done|]. split; [done|]. split; [|done].
    intros t. split; [done|]. by intros (headers & rows & [=] & _).
  - set (keys := map (fun row => Store.cell row 0) rows).
    destruct (new_Set_size keys) as [Hle Hdup].
    assert (Hlen : length keys = length rows) by apply length_map.
    rewrite Hlen in Hle, Hdup.
    destruct checkUnique.
    + rewrite (bySheetName_checked _ _ _ _ Hgrid). fold keys.
      case_decide as Hsize; simpl.
      * split; [done|]. split; [done|]. split; [done|]. split; [|done].
        intros t. split.
        -- intros [= <-]. exists headers, rows. split; [done|]. split; [|done].
           intros _ Hhas. apply Hdup in Hhas. lia.
        -- intros (headers' & rows' & [= <- <-] & _ & ->). done.
      * split; [done|]. split; [split; [|done]|].
        { intros [= Heq]. }
        split; [done|]. split; [|done].
        intros t. split; [done|].
        intros (headers' & rows' & [= <- <-] & Hnodup & _).
        exfalso. apply Hnodup; [done|]. apply Hdup. lia.
    + rewrite (bySheetName_unchecked _ _ _ _ Hgrid). simpl.
      split; [done|]. split; [done|]. split; [done|]. split; [|done].
      intros t. split.
      * intros [= <-]. exists headers, rows. done.
      * intros (headers' & rows' & [= <- <-] & _ & ->). done.
  - unfold Table.bySheetName. rewrite Hgrid. simpl.
    split; [done|]. split; [done|]. split; [done|]. split; [|done].
    intros t. split; [done|]. by intros (headers & rows & [=] & _).
Qed.

End Outcomes.

(** ** [ActiveTableRow.update] and [ActiveTableRowArray.updateAll] *)
















(** ** What a mutation of a Row leaves alone *)


(** ** [deleteAll] a second time *)

Lemma deletion_None w r : position w r = None -> deletion w r = None.
Proof.
  unfold position, deletion. destruct (heap w !! r) as [row|]; simpl; [|done].
  by destruct (rowNumber row).
Qed.

Lemma forEach_delete_nothing (l : list nat) w :
  Forall (fun r => answers w r "delete") l ->
  (forall r, r ∈ l -> position w r = None) ->
  forEach l RowArray.delete_each w = (Normal tt, w).
Proof.
  induction l as [|r l IH]; intros Hanswer Hnone; [done|].
  apply Forall_cons in Hanswer as [Hr Hl].
  simpl. unfold bind. rewrite (delete_each_answered _ _ Hr).
  unfold deleted. rewrite deletion_None by (apply Hnone, elem_of_cons; by left).
  apply IH; [done|]. intros r' Hr'. apply Hnone, elem_of_cons. by right.
Qed.

(** X10. On a collection whose members answer to [delete()]: after
    [deleteAll()] no member holds a position, so a second [deleteAll()] on
    the same collection issues no call and changes no sheet and no Row; it
    reverses the receiver once more, which puts the members back in the
    order they had before the first call. *)
Theorem deleteAll_twice this w :
  Forall (fun r => answers w r "delete") (Store.items w this) ->
  exists w1 w2,
    RowArray.deleteAll this w = (Normal tt, w1)
    /\ (forall r, r ∈ Store.items w this -> position w1 r = None)
    /\ RowArray.deleteAll this w1 = (Normal tt, w2)
    /\ calls w2 = calls w1
    /\ sheets w2 = sheets w1
    /\ heap w2 = heap w1
    /\ Store.items w1 this = reverse (Store.items w this)
    /\ Store.items w2 this = Store.items w this.
Proof.
  intros Hanswer. rewrite deleteAll_unfold.
  destruct (forEach_delete (reverse (Store.items w this)) (RowArray.reverse this w).2)
    as (w1 & Hrun & _ & _ & Harr & Hpos & Hfields); [by apply answers_reversed|].
  simpl in Harr.
  assert (Hitems1 : Store.items w1 this = reverse (Store.items w this)).
  { unfold Store.items. rewrite Harr, list_lookup_alter_eq.
    by destruct (arrays w !! this). }
  assert (Hnone : forall r, r ∈ Store.items w this -> position w1 r = None).
  { intros r Hr. rewrite Hpos, decide_True; [done|]. by apply elem_of_reverse. }
  exists w1, (RowArray.reverse this w1).2.
  split; [done|]. split; [done|]. split.
  { rewrite deleteAll_unfold. apply forEach_delete_nothing.
    - rewrite Hitems1, reverse_involutive.
      eapply Forall_impl; [exact Hanswer|]. intros r.
      apply answers_same_fields. simpl. by rewrite Hfields.
    - intros r Hr. unfold position. simpl. apply Hnone.
      rewrite Hitems1, !elem_of_reverse in Hr. done. }
  do 4 (split; [done|]).
  rewrite items_reverse, Hitems1. apply reverse_involutive.
Qed.

Lemma deleteAll_twice_witness :
  exists w1 w2,
    RowArray.deleteAll 0 Example.loaded = (Normal tt, w1)
    /\ RowArray.deleteAll 0 w1 = (Normal tt, w2)
    /\ calls w2 = [DeleteRow "TestSheet" 3; DeleteRow "TestSheet" 2]
    /\ Store.items w1 0 = [1; 0]
    /\ Store.items w2 0 = [0; 1].
Proof.
  destruct (deleteAll_twice 0 Example.loaded
              (loaded_rows_answer "delete" (or_introl eq_refl)))
    as (w1 & w2 & Hrun1 & _ & Hrun2 & Hcalls & _ & _ & Hitems1 & Hitems2).
  exists w1, w2. split; [exact Hrun1|]. split; [exact Hrun2|].
  rewrite Hcalls, Hitems1, Hitems2.
  assert (Hw1 : w1 = (RowArray.deleteAll 0 Example.loaded).2) by (by rewrite Hrun1).
  rewrite Hw1. vm_compute. repeat split; reflexivity.
Defined.


(** ** The queries of a collection, chained and compared *)

Lemma result_rows_select test this obj w :
  result_rows w (select test this obj)
  = List.filter (fun r => RowArray.every w r obj test) (Store.items w this).
Proof. unfold result_rows, select, Store.new_array. apply items_new_array. Qed.

Lemma every_same_heap w w' r obj test :
  heap w' = heap w -> RowArray.every w' r obj test = RowArray.every w r obj test.
Proof. intros Hheap. unfold RowArray.every, Heap.prop. by rewrite Hheap. Qed.

Lemma result_rows_select_select test1 test2 this obj1 obj2 w :
  result_rows w (a <- select test1 this obj1 ;; select test2 a obj2)
  = List.filter (fun r => RowArray.every w r obj2 test2)
      (List.filter (fun r => RowArray.every w r obj1 test1) (Store.items w this)).
Proof.
  unfold result_rows, bind. unfold select at 1. unfold Store.new_array at 1.
  set (kept := List.filter _ (Store.items w this)).
  change (Store.set_arrays (arrays w ++ [kept]) w) with (with_new_array kept w).
  unfold select, Store.new_array.
  rewrite items_new_array.
  change (Store.set_arrays (arrays (with_new_array kept w) ++ [?l]) (with_new_array kept w))
    with (with_new_array l (with_new_array kept w)).
  rewrite (items_new_array _ (with_new_array kept w)).
  apply filter_ext. intros r. by apply every_same_heap.
Qed.

Lemma filter_filter_comm {A} (f g : A -> bool) (l : list A) :
  List.filter f (List.filter g l) = List.filter g (List.filter f l).
Proof.
  induction l as [|x l IH]; [done|].
  simpl. destruct (f x) eqn:Hf, (g x) eqn:Hg; simpl; rewrite ?Hf, ?Hg, IH; done.
Qed.

Lemma filter_filter_same {A} (f : A -> bool) (l : list A) :
  List.filter f (List.filter f l) = List.filter f l.
Proof. apply forallb_filter_id, forallb_filter. Qed.

Section Chained.
Context `{Js.Runtime}.

Lemma filters_select q :
  q ∈ filters ->
  exists test, q = select test.
Proof.
  unfold filters. rewrite !elem_of_cons.
  intros [->|[->|[->|Hnil]]]; [| | |by apply elem_of_nil in Hnil].
  - by exists RowArray.where_test.
  - by exists Js.greater_than.
  - by exists RowArray.before_test.
Qed.

(** X11. Chained filters of a collection commute and are idempotent: for
    any two of [where], [after] and [before], filtering by the one and then
    the other answers the same rows, in the same order, as filtering the
    other way round, and filtering twice by the same criteria answers what
    filtering once does. *)
Theorem chained_filters_commute this obj1 obj2 w :
  Forall (fun q1 =>
    Forall (fun q2 =>
      result_rows w (a <- q1 this obj1 ;; q2 a obj2)
      = result_rows w (a <- q2 this obj2 ;; q1 a obj1)
      /\ result_rows w (a <- q1 this obj1 ;; q1 a obj1)
         = result_rows w (q1 this obj1))
      filters)
    filters.
Proof.
  apply Forall_forall. intros q1 Hq1. apply Forall_forall. intros q2 Hq2.
  destruct (filters_select q1 Hq1) as [test1 ->].
  destruct (filters_select q2 Hq2) as [test2 ->].
  rewrite !result_rows_select_select, result_rows_select. split.
  - apply filter_filter_comm.
  - apply filter_filter_same.
Qed.

(** A row that answers undefined under a criterion's key passes no
    ordered test: undefined compares neither above nor below anything. *)
Lemma undefined_unordered (value : JsAny) :
  Js.greater_than VUndefined value = false
  /\ Js.less_than VUndefined value = false.
Proof.
  unfold Js.greater_than, Js.less_than, Js.IsLessThan. simpl.
  destruct (Js.ToPrimitive value) as [| | |n|s|]; simpl; try done.
  - by destruct b.
  - by destruct n.
  - by destruct (Js.StringToNumber s).
  - by destruct time.
Qed.

(** X12. A row that answers undefined under some criterion's key (it holds
    no field of that name and inherits no member of that name) is in no
    [after] and no [before] result, whatever the expected value; [where]
    keeps it only if the expected value for that key is undefined. *)
Theorem missing_field_fails_ordered_filters this obj w r key (value : JsValue) :
  obj !! key = Some value ->
  Heap.prop w r key = VUndefined ->
  (r ∉ result_rows w (RowArray.after this obj))
  /\ (r ∉ result_rows w (RowArray.before this obj))
  /\ (r ∈ result_rows w (RowArray.where_ this obj) -> value = VUndefined).
Proof.
  intros Hkv Hprop.
  change (RowArray.after this obj) with (select Js.greater_than this obj).
  change (RowArray.before this obj) with (select RowArray.before_test this obj).
  change (RowArray.where_ this obj) with (select RowArray.where_test this obj).
  rewrite !result_rows_select.
  destruct (undefined_unordered value) as [Hgt Hlt].
  split; [|split].
  - intros Hin. apply list_elem_of_In, filter_In in Hin as [_ Hkeep].
    rewrite every_true in Hkeep. specialize (Hkeep key value Hkv).
    rewrite Hprop in Hkeep. congruence.
  - intros Hin. apply list_elem_of_In, filter_In in Hin as [_ Hkeep].
    rewrite every_true in Hkeep. specialize (Hkeep key value Hkv).
    rewrite Hprop in Hkeep. apply before_test_true in Hkeep as (_ & _ & Hkeep).
    congruence.
  - intros Hin. apply list_elem_of_In, filter_In in Hin as [_ Hkeep].
    rewrite every_true in Hkeep. specialize (Hkeep key value Hkv).
    rewrite Hprop in Hkeep. apply where_test_true in Hkeep. by inversion Hkeep.
Qed.

End Chained.

Lemma missing_field_fails_ordered_filters_witness :
  (4 ∉ result_rows Example.ages
         (RowArray.after (H := Example.runtime) 0 {[ "height" := Example.num (-1) ]}))
  /\ (4 ∉ result_rows Example.ages
            (RowArray.before (H := Example.runtime) 0 {[ "height" := Example.num 9 ]})).
Proof.
  assert (Hafter : ({[ "height" := Example.num (-1) ]} : gmap string JsValue) !! "height"
                   = Some (Example.num (-1))) by (vm_compute; reflexivity).
  assert (Hbefore : ({[ "height" := Example.num 9 ]} : gmap string JsValue) !! "height"
                    = Some (Example.num 9)) by (vm_compute; reflexivity).
  assert (Hprop : Heap.prop Example.ages 4 "height" = VUndefined)
    by (vm_compute; reflexivity).
  destruct (missing_field_fails_ordered_filters (H := Example.runtime) 0
              _ Example.ages 4 "height" _ Hafter Hprop) as (Ha & _ & _).
  destruct (missing_field_fails_ordered_filters (H := Example.runtime) 0
              _ Example.ages 4 "height" _ Hbefore Hprop) as (_ & Hb & _).
  exact (conj Ha Hb).
Defined.

(** ** Reading a table and deleting what was read *)

Lemma without_rows_ext {A} (rows : list A) :
  forall offset gone gone',
    (forall j, offset <= j -> j ∈ gone <-> j ∈ gone') ->
    without_rows offset gone rows = without_rows offset gone' rows.
Proof.
  induction rows as [|row rest IH]; intros offset gone gone' Hsame; [done|].
  cbn [without_rows].
  rewrite (IH (S offset) gone gone') by (intros j Hj; apply Hsame; lia).
  destruct (decide (offset ∈ gone)) as [Hin|Hnin].
  - by rewrite decide_True by (by apply Hsame).
  - rewrite decide_False; [done|]. intros Hin. apply Hnin. by apply Hsame.
Qed.

Lemma without_rows_nil {A} (rows : list A) offset : without_rows offset [] rows = rows.
Proof.
  revert offset. induction rows as [|row rest IH]; intros offset; [done|].
  cbn [without_rows]. rewrite decide_False by apply not_elem_of_nil.
  by rewrite IH.
Qed.

(** Deleting a row that is still there, above every row already gone. *)
Lemma without_rows_delete {A} (rows : list A) :
  forall offset gone i,
    (forall j, offset <= j <= offset + i -> j ∉ gone) ->
    base.delete i (without_rows offset gone rows)
    = without_rows offset ((offset + i) :: gone) rows.
Proof.
  induction rows as [|row rest IH]; intros offset gone i Hfree; [done|].
  cbn [without_rows]. rewrite decide_False by (apply Hfree; lia).
  destruct i as [|i].
  - rewrite Nat.add_0_r.
    rewrite decide_True by (apply elem_of_cons; by left). cbn [base.delete list_delete].
    apply without_rows_ext. intros j Hj. rewrite elem_of_cons.
    split; [by right|]. intros [->|?]; [lia|done].
  - rewrite decide_False.
    + cbn [base.delete list_delete]. f_equal.
      replace (offset + S i) with (S offset + i) by lia.
      apply IH. intros j Hj. apply Hfree. lia.
    + rewrite elem_of_cons. intros [?|Hin]; [lia|].
      by apply (Hfree offset); [lia|].
Qed.

(** Deleting, from the last to the first, rows listed in increasing
    order leaves the rows that are not listed. *)
Lemma delete_in_reverse {A} offset (gone : list nat) (rows : list A) :
  StronglySorted lt gone -> Forall (fun r => offset <= r) gone ->
  foldr (fun r grid => base.delete (r - offset) grid) rows gone
  = without_rows offset gone rows.
Proof.
  induction 1 as [|r gone Hsorted IH Hlater]; intros Hfrom.
  - by rewrite without_rows_nil.
  - apply Forall_cons in Hfrom as [Hr Hfrom]. simpl. rewrite IH by done.
    rewrite (without_rows_delete rows offset gone (r - offset)).
    + by replace (offset + (r - offset)) with r by lia.
    + intros j Hj Hin. rewrite Forall_forall in Hlater.
      specialize (Hlater j Hin). lia.
Qed.

Lemma delete_below_header {A} offset (gone : list nat) (header : A) rows :
  foldr (fun r grid => base.delete (r - offset + 1) grid) (header :: rows) gone
  = header :: foldr (fun r grid => base.delete (r - offset) grid) rows gone.
Proof.
  induction gone as [|r gone IH]; [done|].
  simpl. rewrite IH. by replace (r - offset + 1) with (S (r - offset)) by lia.
Qed.

(** The [deleteRow] calls of one sheet, applied in order. *)
Lemma apply_deleteRows s (positions : list nat) :
  forall ss,
    foldl (fun ss c => Store.apply_call c ss) ss (DeleteRow s <$> positions)
    = alter (fun grid => foldl (fun grid p => Store.grid_deleteRow p grid)
                               grid positions) s ss.
Proof.
  induction positions as [|p positions IH]; intros ss.
  - symmetry. by apply alter_id.
  - rewrite fmap_cons. cbn [foldl]. rewrite IH. cbn [Store.apply_call].
    by rewrite alter_alter_eq.
Qed.

Lemma deleteRows_in_reverse offset (gone : list nat) (grid : list (list JsValue)) :
  foldl (fun grid p => Store.grid_deleteRow p grid) grid
        ((fun r => r - offset + 2) <$> reverse gone)
  = foldr (fun r grid => base.delete (r - offset + 1) grid) grid gone.
Proof.
  induction gone as [|r gone IH]; [done|].
  rewrite reverse_cons, fmap_app, foldl_app, IH. simpl.
  by replace (r - offset + 2) with (S (r - offset + 1)) by lia.
Qed.

Lemma seq_sorted base n : StronglySorted lt (seq base n).
Proof.
  revert base. induction n as [|n IH]; intros base; [constructor|].
  simpl. constructor; [apply IH|].
  apply Forall_forall. intros r Hr. apply elem_of_seq in Hr. lia.
Qed.

Lemma filter_sorted (f : nat -> bool) l :
  StronglySorted lt l -> StronglySorted lt (List.filter f l).
Proof.
  induction 1 as [|r l Hsorted IH Hall]; [constructor|].
  simpl. destruct (f r); [|done]. constructor; [done|].
  rewrite Forall_forall in *. intros x Hx. apply Hall.
  apply list_elem_of_In in Hx. apply filter_In in Hx as [Hx _].
  by apply list_elem_of_In.
Qed.

Lemma remove_dups_sorted (l : list nat) : StronglySorted lt l -> remove_dups l = l.
Proof.
  induction 1 as [|r l Hsorted IH Hall]; [done|].
  simpl. rewrite IH.
  destruct (decide_rel elem_of r l) as [Hin|Hnin]; [|done].
  rewrite Forall_forall in Hall. specialize (Hall r Hin). lia.
Qed.

Lemma last_named_None key attrs :
  key ∉ name <$> attrs -> last_named key attrs = None.
Proof.
  intros Hkey. unfold last_named. rewrite filter_none; [done|].
  intros attr Hattr Hname. apply Hkey. rewrite <- Hname.
  by apply list_elem_of_fmap_2.
Qed.

(** A Row read from a table that has no column named delete or
    [__proto__] answers to [delete()]. *)
Lemma lazyRow_answers t k cells :
  "delete" ∉ name <$> attributes t -> "__proto__" ∉ name <$> attributes t ->
  fields (Table.lazyRow t k cells) !! "delete" = None
  /\ Property.prototype_of (fields (Table.lazyRow t k cells)) = Property.RowProto.
Proof.
  intros Hdelete Hproto. unfold Property.prototype_of.
  by rewrite !lazyRow_fields, !last_named_None.
Qed.

(** The collection of Rows just read from a table, or any part of it in
    the same order, deleted as a whole. *)
Lemma deleteAll_after_read t w w1 a headers rows (f : nat -> bool) :
  sheets w !! sheet t = Some (headers :: rows) ->
  "delete" ∉ name <$> attributes t -> "__proto__" ∉ name <$> attributes t ->
  heap w1 = heap (after_read t w) -> sheets w1 = sheets w -> calls w1 = calls w ->
  Store.items w1 a = List.filter f (seq (length (heap w)) (length rows)) ->
  exists w2,
    RowArray.deleteAll a w1 = (Normal tt, w2)
    /\ calls w2
       = calls w ++ ((fun r => DeleteRow (sheet t) (r - length (heap w) + 2))
                       <$> reverse (Store.items w1 a))
    /\ Store.getValues w2 (sheet t)
       = headers :: without_rows (length (heap w)) (Store.items w1 a) rows
    /\ (forall s, s <> sheet t -> sheets w2 !! s = sheets w !! s).
Proof.
  intros Hgrid Hdelete Hproto Hheap Hsheets Hcalls Hitems.
  set (base := length (heap w)) in *.
  set (kept := Store.items w1 a) in *.
  assert (Hdata : data_rows w t = rows).
  { unfold data_rows, Store.getValues. by rewrite Hgrid. }
  assert (Hsorted : StronglySorted lt kept).
  { rewrite Hitems. apply filter_sorted, seq_sorted. }
  assert (Hrange : forall r, r ∈ kept -> base <= r < base + length rows).
  { intros r Hr. rewrite Hitems in Hr.
    apply list_elem_of_In, filter_In in Hr as [Hr _].
    by apply list_elem_of_In, elem_of_seq in Hr. }
  assert (Hrow : forall r, r ∈ kept ->
            exists cells, heap w1 !! r = Some (Table.lazyRow t (r - base) cells)).
  { intros r Hr. apply Hrange in Hr.
    destruct (lookup_lt_is_Some_2 rows (r - base)) as [cells Hcells]; [lia|].
    exists cells. rewrite Hheap.
    replace r with (base + (r - base)) at 1 by lia.
    apply heap_after_read_new. by rewrite Hdata. }
  assert (Hanswer : Forall (fun r => answers w1 r "delete") kept).
  { apply Forall_forall. intros r Hr. apply answers_iff; [by left|].
    intros row Hrow'. destruct (Hrow r Hr) as [cells Hcells].
    rewrite Hcells in Hrow'. injection Hrow' as <-.
    by apply lazyRow_answers. }
  assert (Hdeletion : omap (deletion w1) (reverse kept)
                      = (fun r => DeleteRow (sheet t) (r - base + 2)) <$> reverse kept).
  { assert (Hall : forall l : list nat, (forall r, r ∈ l -> r ∈ kept) ->
              omap (deletion w1) l
              = (fun r => DeleteRow (sheet t) (r - base + 2)) <$> l).
    { induction l as [|r l IH]; intros Hl; [done|].
      cbn [omap list_omap]. rewrite fmap_cons, <- IH
        by (intros r' Hr'; apply Hl, elem_of_cons; by right).
      destruct (Hrow r) as [cells Hcells]; [apply Hl, elem_of_cons; by left|].
      unfold deletion at 1. rewrite Hcells. simpl. done. }
    apply Hall. intros r Hr. by apply elem_of_reverse. }
  rewrite deleteAll_unfold.
  destruct (forEach_delete (reverse kept) (RowArray.reverse a w1).2)
    as (w2 & Hrun & Hcalls2 & Hsheets2 & _); [by apply answers_reversed|].
  assert (Hvisits : first_visits (reverse kept) = reverse kept).
  { unfold first_visits. by rewrite reverse_involutive, remove_dups_sorted. }
  rewrite Hvisits in Hcalls2, Hsheets2.
  change (deletion (RowArray.reverse a w1).2) with (deletion w1) in Hcalls2, Hsheets2.
  rewrite Hdeletion in Hcalls2, Hsheets2. simpl in Hcalls2, Hsheets2.
  exists w2. split; [done|]. split; [by rewrite Hcalls2, Hcalls|].
  rewrite Hsheets in Hsheets2.
  rewrite (list_fmap_compose (fun r => r - base + 2) (DeleteRow (sheet t))) in Hsheets2.
  rewrite apply_deleteRows in Hsheets2.
  split.
  - unfold Store.getValues.
    rewrite Hsheets2, lookup_alter_eq, Hgrid. simpl.
    rewrite deleteRows_in_reverse, delete_below_header. f_equal.
    apply delete_in_reverse; [done|].
    apply Forall_forall. intros r Hr. apply Hrange in Hr. lia.
  - intros s Hs. by rewrite Hsheets2, lookup_alter_ne.
Qed.

Section Purge.
Context `{Js.Runtime}.

(** X13. On a table with a header row and no column named delete or
    [__proto__], reading a collection ([all], [where], [after] or
    [before]) and calling [deleteAll()] on it completes, issues one
    [deleteRow] per Row of the collection, from the last to the first, at
    the position the Row was read at, and leaves in the sheet exactly the
    header row and the data rows that were not in the collection, in
    their order; every other sheet is as before. *)
Theorem deleteAll_removes_what_was_read t obj w headers rows :
  sheets w !! sheet t = Some (headers :: rows) ->
  "delete" ∉ name <$> attributes t -> "__proto__" ∉ name <$> attributes t ->
  Forall (fun read : ActiveTable -> gmap string JsValue -> Op nat =>
            exists a w1 w2,
              read t obj w = (Normal a, w1)
              /\ RowArray.deleteAll a w1 = (Normal tt, w2)
              /\ calls w2
                 = calls w
                   ++ ((fun r => DeleteRow (sheet t) (r - length (heap w) + 2))
                         <$> reverse (Store.items w1 a))
              /\ Store.getValues w2 (sheet t)
                 = headers :: without_rows (length (heap w)) (Store.items w1 a) rows
              /\ (forall s, s <> sheet t -> sheets w2 !! s = sheets w !! s))
         reads.
Proof.
  intros Hgrid Hdelete Hproto.
  assert (Hdata : data_rows w t = rows).
  { unfold data_rows, Store.getValues. by rewrite Hgrid. }
  assert (Hselect : forall test,
    exists a w1 w2,
      (a0 <- Table.rows t ;; select test a0 obj) w = (Normal a, w1)
      /\ RowArray.deleteAll a w1 = (Normal tt, w2)
      /\ calls w2
         = calls w
           ++ ((fun r => DeleteRow (sheet t) (r - length (heap w) + 2))
                 <$> reverse (Store.items w1 a))
      /\ Store.getValues w2 (sheet t)
         = headers :: without_rows (length (heap w)) (Store.items w1 a) rows
      /\ (forall s, s <> sheet t -> sheets w2 !! s = sheets w !! s)).
  { intros test. unfold bind. rewrite rows_eq.
    set (w0 := after_read t w).
    set (f := fun r => RowArray.every w0 r obj test).
    exists (length (arrays w0)),
           (with_new_array (List.filter f (Store.items w0 (length (arrays w)))) w0).
    destruct (deleteAll_after_read t w
                (with_new_array (List.filter f (Store.items w0 (length (arrays w)))) w0)
                (length (arrays w0)) headers rows f)
      as (w2 & Hrun); try done.
    { rewrite items_new_array. unfold w0. by rewrite items_after_read, Hdata. }
    by exists w2. }
  unfold reads.
  constructor; [|constructor; [|constructor; [|constructor; [|constructor]]]].
  - unfold Table.all. rewrite rows_eq.
    exists (length (arrays w)), (after_read t w).
    destruct (deleteAll_after_read t w (after_read t w) (length (arrays w))
                headers rows (fun _ => true))
      as (w2 & Hrun); try done.
    { rewrite items_after_read, Hdata.
      symmetry. apply forallb_filter_id, forallb_forall. done. }
    by exists w2.
  - apply (Hselect RowArray.where_test).
  - apply (Hselect Js.greater_than).
  - apply (Hselect RowArray.before_test).
Qed.

End Purge.

(** The sheet of the test suite, its inactive users deleted: the row of
    user1 is what remains below the header. *)
Lemma deleteAll_removes_what_was_read_witness :
  exists a w1 w2,
    Table.where_ Example.table {[ "status" := VString "inactive" ]}
                 (Example.world "TestSheet" Example.users) = (Normal a, w1)
    /\ RowArray.deleteAll a w1 = (Normal tt, w2)
    /\ calls w2 = [DeleteRow "TestSheet" 3]
    /\ Store.getValues w2 "TestSheet"
       = [ [VString "id"; VString "name"; VString "status"];
           [VString "user1"; VString "Alice"; VString "active"] ].
Proof.
  assert (Hgrid : sheets (Example.world "TestSheet" Example.users)
                    !! sheet Example.table
                  = Some ([VString "id"; VString "name"; VString "status"]
                            :: [ [VString "user1"; VString "Alice"; VString "active"];
                                 [VString "user2"; VString "Bob"; VString "inactive"] ]))
    by (vm_compute; reflexivity).
  assert (Hdelete : "delete" ∉ name <$> attributes Example.table)
    by (vm_compute; intros Hin; by repeat (apply elem_of_cons in Hin as [?|Hin]; [done|]);
        apply elem_of_nil in Hin).
  assert (Hproto : "__proto__" ∉ name <$> attributes Example.table)
    by (vm_compute; intros Hin; by repeat (apply elem_of_cons in Hin as [?|Hin]; [done|]);
        apply elem_of_nil in Hin).
  pose proof (deleteAll_removes_what_was_read (H := Example.runtime) Example.table
                {[ "status" := VString "inactive" ]}
                (Example.world "TestSheet" Example.users) _ _ Hgrid Hdelete Hproto)
    as Hall.
  apply Forall_cons in Hall as [_ Hall].
  apply Forall_cons in Hall as [(a & w1 & w2 & Hread & Hrun & Hcalls & Hvalues & _) _].
  exists a, w1, w2. split; [exact Hread|]. split; [exact Hrun|].
  assert (Hw1 : w1 = (Table.where_ Example.table {[ "status" := VString "inactive" ]}
                        (Example.world "TestSheet" Example.users)).2)
    by (by rewrite Hread).
  assert (Ha : a = 1).
  { assert (Ha' : Normal a
                  = (Table.where_ Example.table {[ "status" := VString "inactive" ]}
                       (Example.world "TestSheet" Example.users)).1)
      by (by rewrite Hread).
    vm_compute in Ha'. by injection Ha'. }
  change (sheet Example.table) with "TestSheet" in Hcalls, Hvalues.
  rewrite Hcalls, Hvalues, Hw1, Ha. vm_compute. by split.
Defined.

(** ** A row created is read back *)

(** [create] on a table none of whose columns bears the name of a member
    that objects inherit. *)
Lemma create_plain t obj w :
  Forall (fun attr => plain_name (name attr)) (attributes t) ->
  Table.create t obj w
  = (Normal tt,
     {| sheets := alter (fun grid => grid ++ [map (field_or_empty obj) (attributes t)])
                        (sheet t) (sheets w);
        calls := calls w
                 ++ [AppendRow (sheet t)
                       (Cell <$> map (field_or_empty obj) (attributes t))];
        heap := heap w;
        arrays := arrays w |}).
Proof.
  intros Hplain.
  unfold Table.create, Operable.create, Store.issue. rewrite values_written.
  assert (Hrow : map (written obj) (attributes t)
                 = Cell <$> map (field_or_empty obj) (attributes t)).
  { rewrite <- list_fmap_compose. apply map_ext_in.
    intros attr Hattr. apply written_plain_name.
    rewrite Forall_forall in Hplain. by apply Hplain, list_elem_of_In. }
  rewrite Hrow. simpl. by rewrite cells_of_cells.
Qed.

(** X14. On a table with a header row whose columns are numbered from 1,
    bear distinct names and none the name of a member that objects
    inherit, a row created is read back: after [create(fields)], [all()]
    answers one Row more, the last one, at the position below the rows the
    sheet had; it belongs to the table and holds, under each column's
    name, the field of that name or the empty string where [fields] had
    none (or undefined or null), and no field under any other key. *)
Theorem created_row_is_read_back t obj w headers rows :
  sheets w !! sheet t = Some (headers :: rows) ->
  numbered t -> NoDup (name <$> attributes t) ->
  Forall (fun attr => plain_name (name attr)) (attributes t) ->
  exists w1 w2 row,
    Table.create t obj w = (Normal tt, w1)
    /\ Table.all t w1 = (Normal (length (arrays w)), w2)
    /\ Store.items w2 (length (arrays w))
       = seq (length (heap w)) (length rows + 1)
    /\ heap w2 !! (length (heap w) + length rows) = Some row
    /\ rowNumber row = Some (length rows + 2)
    /\ table row = t
    /\ (forall attr, attr ∈ attributes t ->
          Store.get (fields row) (name attr) = field_or_empty obj attr)
    /\ (forall key, key ∉ name <$> attributes t -> fields row !! key = None).
Proof.
  intros Hgrid Hnumbered Hnames Hplain.
  set (created := map (field_or_empty obj) (attributes t)).
  rewrite (create_plain _ _ _ Hplain). fold created.
  set (w1 := {| sheets := _; calls := _; heap := heap w; arrays := arrays w |}).
  assert (Hdata : data_rows w1 t = rows ++ [created]).
  { unfold data_rows, Store.getValues, w1; simpl.
    by rewrite lookup_alter_eq, Hgrid. }
  exists w1, (after_read t w1), (Table.lazyRow t (length rows) created).
  split; [done|]. unfold Table.all. rewrite rows_eq.
  split; [done|]. split.
  { change (arrays w) with (arrays w1). change (heap w) with (heap w1).
    rewrite items_after_read, Hdata, length_app. simpl. done. }
  split.
  { change (heap w) with (heap w1).
    apply (heap_after_read_new t w1). rewrite Hdata.
    by apply list_lookup_middle. }
  split; [done|]. split; [done|]. split.
  - intros attr Hattr. unfold Store.get.
    rewrite lazyRow_fields, last_named_unique by done. simpl.
    apply list_elem_of_lookup in Hattr as [j Hj].
    rewrite (Hnumbered j attr Hj).
    replace (j + 1 - 1) with j by lia.
    unfold Store.cell, created. by rewrite list_lookup_fmap, Hj.
  - intros key Hkey. by rewrite lazyRow_fields, last_named_None.
Qed.

Lemma created_row_is_read_back_witness :
  exists w1 w2 row,
    Table.create Example.table {[ "id" := VString "x"; "name" := VString "y" ]}
                 (Example.world "TestSheet" Example.users) = (Normal tt, w1)
    /\ Table.all Example.table w1 = (Normal 0, w2)
    /\ Store.items w2 0 = [0; 1; 2]
    /\ heap w2 !! 2 = Some row
    /\ rowNumber row = Some 4
    /\ fields row
       = {[ "id" := VString "x"; "name" := VString "y"; "status" := VString "" ]}.
Proof.
  assert (Hgrid : sheets (Example.world "TestSheet" Example.users)
                    !! sheet Example.table
                  = Some ([VString "id"; VString "name"; VString "status"]
                            :: [ [VString "user1"; VString "Alice"; VString "active"];
                                 [VString "user2"; VString "Bob"; VString "inactive"] ]))
    by (vm_compute; reflexivity).
  assert (Hnumbered : numbered Example.table).
  { intros j attr Hj. destruct j as [|[|[|j]]]; simpl in Hj; by simplify_eq. }
  assert (Hnames : NoDup (name <$> attributes Example.table)).
  { compute_done. }
  assert (Hplain : Forall (fun attr => plain_name (name attr))
                          (attributes Example.table)).
  { repeat constructor; simpl; try discriminate; compute_done. }
  destruct (created_row_is_read_back Example.table
              {[ "id" := VString "x"; "name" := VString "y" ]}
              (Example.world "TestSheet" Example.users) _ _
              Hgrid Hnumbered Hnames Hplain)
    as (w1 & w2 & row & Hcreate & Hall & Hitems & Hrow & Hposition & _).
  exists w1, w2, row. split; [exact Hcreate|]. split; [exact Hall|].
  split; [exact Hitems|]. split; [exact Hrow|]. split; [exact Hposition|].
  assert (Hw2 : w2 = (Table.all Example.table
                        (Table.create Example.table
                           {[ "id" := VString "x"; "name" := VString "y" ]}
                           (Example.world "TestSheet" Example.users)).2).2).
  { rewrite Hcreate. cbn [snd]. by rewrite Hall. }
  rewrite Hw2 in Hrow. vm_compute in Hrow. injection Hrow as <-.
  vm_compute. reflexivity.
Defined.

